(** * cmdlinearg.hh: decoding command line arguments into variables

    A shallow embedding of [src/cmdlinearg/cmdlinearg.hh] (namespace
    [arguments]) and the properties of its token matcher, its consumption
    loop and its converters.

    Conventions of the embedding.
    - A non-null [const char*] is the [string] of the characters before its
      terminator; a nullable one is an [option string] ([None] is [nullptr]).
      The entries [argv[0..argc-1]] are non-null, so queue tokens are [string]s.
    - A bound variable ([T &v]) is a name in a [store]; its content is a
      [value].  [long] is 64 bits wide and [int] 32 bits wide.
    - Undefined behaviour of the C++ program (front() of an empty list, the
      read of a variable that was never written, an index past [argv]) is an
      explicit result, [Undefined].
    - The machine carries one ghost field, [calls]: the log of the [setMe]
      invocations.  The code has no such field; nothing reads it. *)

From Stdlib Require Import ZArith List String Ascii Bool Lia.
Import ListNotations.

Module arguments.

Local Open Scope string_scope.
Local Open Scope list_scope.
Local Open Scope Z_scope.

(** ** Results of a computation that may leave defined behaviour *)

Inductive undefined : Type :=
| front_of_empty       (* l.front() / l.pop_front() on an empty forward_list *)
| indeterminate_read   (* read of an automatic variable that was never written *)
| out_of_bounds.       (* argv[c] with c past the end of the vector *)

Inductive outcome (A : Type) : Type :=
| Ret (a : A)
| Undefined (u : undefined)
| OutOfFuel.

Arguments Ret {A} a.
Arguments Undefined {A} u.
Arguments OutOfFuel {A}.

Definition bind {A B : Type} (x : outcome A) (f : A -> outcome B) : outcome B :=
  match x with
  | Ret a => f a
  | Undefined u => Undefined u
  | OutOfFuel => OutOfFuel
  end.

Definition omap {A B : Type} (f : A -> B) (x : outcome A) : outcome B :=
  bind x (fun a => Ret (f a)).

Notation "x <- e1 ;; e2" := (bind e1 (fun x => e2))
  (at level 61, e1 at next level, right associativity).
Notation "' p <- e1 ;; e2" := (bind e1 (fun x => match x with p => e2 end))
  (at level 61, p pattern, e1 at next level, right associativity).

(** ** Values of the bound variables *)

Inductive ty : Type :=
| TBool
| TInt
| TString
| TList (T : ty).     (* any container with push_back: vector<T>, list<T> *)

#[warnings="-register-all"]
Inductive value : Type :=
| VBool (b : bool)
| VInt (z : Z)
| VString (str : string)
| VList (xs : list value).

Definition var := string.
Definition store := var -> value.

Definition upd (x : var) (v : value) (st : store) : store :=
  fun y => if String.eqb x y then v else st y.

(** ** The C library functions the converters call *)

(** [::tolower] in the C locale. *)
Definition tolower (c : ascii) : ascii :=
  let n := nat_of_ascii c in
  if ((65 <=? n) && (n <=? 90))%nat then ascii_of_nat (n + 32) else c.

(** [std::transform(s.begin(), s.end(), s.begin(), ::tolower)]. *)
Fixpoint transform (f : ascii -> ascii) (str : string) : string :=
  match str with
  | EmptyString => EmptyString
  | String c rest => String (f c) (transform f rest)
  end.

(** [isspace] in the C locale: space, \t, \n, \v, \f, \r. *)
Definition isspace (c : ascii) : bool :=
  let n := nat_of_ascii c in
  ((n =? 32) || ((9 <=? n) && (n <=? 13)))%nat.

Definition digit_val (c : ascii) : option Z :=
  let n := nat_of_ascii c in
  if ((48 <=? n) && (n <=? 57))%nat then Some (Z.of_nat (n - 48))
  else if ((97 <=? n) && (n <=? 122))%nat then Some (Z.of_nat (n - 87))
  else if ((65 <=? n) && (n <=? 90))%nat then Some (Z.of_nat (n - 55))
  else None.

Definition digit_in (base : Z) (c : ascii) : option Z :=
  match digit_val c with
  | Some dv => if dv <? base then Some dv else None
  | None => None
  end.

(** The subject sequence of digits: accumulated value and number of
    characters taken. *)
Fixpoint scan_digits (base : Z) (str : string) (acc : Z) (taken : nat) : Z * nat :=
  match str with
  | String c rest =>
      match digit_in base c with
      | Some dv => scan_digits base rest (acc * base + dv) (S taken)
      | None => (acc, taken)
      end
  | EmptyString => (acc, taken)
  end.

Fixpoint skip_space (str : string) : string :=
  match str with
  | String c rest => if isspace c then skip_space rest else str
  | EmptyString => str
  end.

Definition LONG_MAX : Z := 2 ^ 63 - 1.
Definition LONG_MIN : Z := - 2 ^ 63.

Definition clamp_long (neg : bool) (magnitude : Z) : Z :=
  if neg then Z.max LONG_MIN (- magnitude) else Z.min LONG_MAX magnitude.

(** The optional sign of the subject sequence. *)
Definition strtol_sign (body : string) : bool * string :=
  match body with
  | String "-" rest => (true, rest)
  | String "+" rest => (false, rest)
  | _ => (false, body)
  end.

(** Base 0: [0x]/[0X] followed by a hexadecimal digit selects 16 and is
    skipped; a leading [0] selects 8 (and is itself the first digit);
    anything else selects 10. *)
Definition strtol_base (body : string) : Z * string :=
  match body with
  | String "0" (String x rest) =>
      if (Ascii.eqb x "x" || Ascii.eqb x "X")%bool then
        match rest with
        | String c _ =>
            match digit_in 16 c with
            | Some _ => (16, rest)
            | None => (8, body)
            end
        | EmptyString => (8, body)
        end
      else (8, body)
  | String "0" EmptyString => (8, body)
  | _ => (10, body)
  end.

(** [strtol(s, &r, 0)]: white space, an optional sign, the base chosen by the
    prefix, then the longest run of digits of that base.  The result is the
    value, clamped to the range of [long], and whether the end pointer moved
    ([s != r]); with no digit no conversion is performed, the value is 0 and
    the end pointer is [s]. *)
Definition strtol0 (nptr : string) : Z * bool :=
  let '(neg, body) := strtol_sign (skip_space nptr) in
  let '(base, digits) := strtol_base body in
  let '(magnitude, taken) := scan_digits base digits 0 0%nat in
  match taken with
  | O => (0, false)
  | S _ => (clamp_long neg magnitude, true)
  end.

(** The conversion [long -> int]: reduction modulo 2^32 into the signed
    range. *)
Definition to_int (z : Z) : Z := (z + 2 ^ 31) mod 2 ^ 32 - 2 ^ 31.

(** ** Single string conversion types: int, bool, string *)

(** [bool fromString(std::string &v, const char* s)] *)
Definition fromString_string (s0 : string) : bool * string := (true, s0).

(** [bool fromString(int &v, const char* s)]: the pair is the return value
    and the value written to [v]. *)
Definition fromString_int (s0 : string) : bool * Z :=
  let '(x, moved) := strtol0 s0 in (moved, to_int x).

(** [bool fromString(bool &v, const char* _s)]: [( v = isTrue ) || isFalse]. *)
Definition fromString_bool (_s : string) : bool * bool :=
  let s0 := transform tolower _s in
  let isTrue := String.eqb s0 "1" || String.eqb s0 "true" ||
                String.eqb s0 "yes" || String.eqb s0 "enable" in
  let isFalse := String.eqb s0 "0" || String.eqb s0 "false" ||
                 String.eqb s0 "no" || String.eqb s0 "disable" in
  (isTrue || isFalse, isTrue)%bool.

(** A default-initialised [T x]: an empty container; a scalar is
    indeterminate, and every scalar converter writes it before any read. *)
Definition fresh (T : ty) : value :=
  match T with
  | TBool => VBool false
  | TInt => VInt 0
  | TString => VString ""
  | TList _ => VList []
  end.

(** [v.push_back(x)]; the static type of [v] is a container. *)
Definition push_back (v : value) (x : value) : value :=
  match v with
  | VList xs => VList (xs ++ [x])
  | _ => v
  end.

(** [fromString(v, s)] by the static type of [v]: the return value and the
    content of [v] afterwards, given its content [old] before. *)
Fixpoint fromString (T : ty) (s0 : string) (old : value) : bool * value :=
  match T with
  | TString => let '(r, x) := fromString_string s0 in (r, VString x)
  | TInt => let '(r, x) := fromString_int s0 in (r, VInt x)
  | TBool => let '(r, x) := fromString_bool s0 in (r, VBool x)
  | TList T' =>
      let '(r, x) := fromString T' s0 (fresh T') in
      if r then (r, push_back old x) else (r, old)
  end.

(** Trait that maps a type to the number of arguments it will consume. *)
Definition number_of_arguments (T : ty) : Z :=
  match T with
  | TBool => 0
  | _ => 1
  end.

(** ** Descriptors, error states and the machine *)

Record argStrings : Type := mkArgStrings {
  s : option string;     (* short spelling *)
  l : option string;     (* long spelling *)
  h : option string;     (* help text *)
  d : option string      (* default, as it would be on the command line *)
}.

(** Error handling *)
Inductive errorstate_e : Type := ok | invalid | unknown.

Record errorState : Type := mkErrorState {
  state : errorstate_e;
  op : option string;
  val : option string
}.

Definition isOk (e : errorState) : bool :=
  match state e with ok => true | _ => false end.

(** [argObjBase] with its two virtual members: [numArgs] and the conversion
    that [setMe] performs on the bound variable.  [argObj<T>] below is the
    instance the code provides; any other [fromString] overload is another
    value of [conv]. *)
Record argObjBase : Type := mkArgObjBase {
  strings : argStrings;
  seen : bool;
  numArgs : Z;
  conv : string -> store -> bool * store
}.

(** [argObj<T>::setMe] after [seen = true]: [fromString(v, s)] on [T &v]. *)
Definition assign (T : ty) (v : var) : string -> store -> bool * store :=
  fun s0 st => let '(r, x) := fromString T s0 (st v) in (r, upd v x st).

(** The constructor [argObj<T>(_s, _l, _h, _d, _v)]. *)
Definition argObj (T : ty) (_s _l _h _d : option string) (_v : var) : argObjBase :=
  {| strings := mkArgStrings _s _l _h _d;
     seen := false;
     numArgs := number_of_arguments T;
     conv := assign T _v |}.

(** A descriptor is an [argObj<T>] bound to [v], whatever its [seen] flag
    and strings are. *)
Definition isArgObj (T : ty) (v : var) (a : argObjBase) : Prop :=
  numArgs a = number_of_arguments T /\ conv a = assign T v.

Definition mark_seen (a : argObjBase) : argObjBase :=
  {| strings := strings a; seen := true; numArgs := numArgs a; conv := conv a |}.

(** The object a [argObjBase*] points to: a registered descriptor, by its
    position in iteration order, or the static [noDefault no]. *)
Inductive target : Type :=
| registered (i : nat)
| no.

Definition queue := list string.

Record machine : Type := mkMachine {
  options : list argObjBase;          (* std::forward_list<argObjBase*> *)
  vars : store;                       (* the bound variables *)
  calls : list (target * string)      (* ghost: the setMe invocations *)
}.

Fixpoint replace {A : Type} (i : nat) (x : A) (xs : list A) : list A :=
  match xs, i with
  | [], _ => []
  | _ :: rest, O => x :: rest
  | y :: rest, S j => y :: replace j x rest
  end.

(** [a->setMe(s)] through a pointer.  On a registered descriptor:
    [this->seen = true; return fromString(v, s);].  On [no]: [return false].
    A position outside the registry is not a pointer the code can hold
    ([findArg] and [findDefault] return positions inside it, see
    [findDefault_valid]); the last branch only makes the function total. *)
Definition setMe (a : target) (s0 : string) (m : machine) : bool * machine :=
  match a with
  | no => (false, mkMachine (options m) (vars m) (calls m ++ [(no, s0)]))
  | registered i =>
      match nth_error (options m) i with
      | Some o =>
          let '(r, st) := conv o s0 (vars m) in
          (r, mkMachine (replace i (mark_seen o) (options m)) st
                        (calls m ++ [(registered i, s0)]))
      | None => (false, m)
      end
  end.

(** ** The main workhorse object: [options<max_string_length, delims...>] *)

Section Options.

(** The template parameters.  An empty [delims] selects the specialisation
    [delimHelper<T>]. *)
Variable max_string_length : Z.
Variable delims : list ascii.

(** [delimHelper<char, delims...>().isDelim(c)] *)
Definition isDelim (c : ascii) : bool :=
  match delims with
  | [] => (Ascii.eqb c "=" || Ascii.eqb c ":")%bool
  | _ => existsb (fun x => Ascii.eqb c x) delims
  end.

(** The [while] loop of [isMe]; [n] is [x - z].  [None] is the [return false]
    inside the loop, otherwise the strings at [x] and [y] after the loop. *)
Fixpoint isMe_loop (x y : string) (n : Z) : option (string * string) :=
  match x, y with
  | String cx x', String cy y' =>
      if n <? max_string_length then
        if Ascii.eqb cx cy then isMe_loop x' y' (n + 1) else None
      else Some (x, y)
  | _, _ => Some (x, y)
  end.

(** [bool isMe(const char* &d, const char* z, int sl)]: [None] is [false],
    [Some d] is [true] with the out parameter [d]. *)
Definition isMe (a : argObjBase) (z : option string) (sl : bool)
  : option (option string) :=
  let y := if sl then s (strings a) else l (strings a) in
  match z, y with
  | None, None => Some None
  | None, Some _ => None
  | Some _, None => None
  | Some x, Some y =>
      match isMe_loop x y 0 with
      | None => None
      | Some (x, y) =>
          match y with
          | String _ _ => None
          | EmptyString =>
              match x with
              | EmptyString => Some None
              | String c rest =>
                  if sl then
                    Some (Some (if isDelim c then rest else x))
                  else if isDelim c then Some (Some rest)
                  else None
              end
          end
      end
  end.

(** Helper functions for setting defaults, and finding arguments. *)

Definition setDefaults_step (m : machine) (i : nat) : machine :=
  match nth_error (options m) i with
  | Some a =>
      match seen a, d (strings a) with
      | false, Some dflt => snd (setMe (registered i) dflt m)
      | _, _ => m
      end
  | None => m
  end.

Definition setDefaults (m : machine) : machine :=
  fold_left setDefaults_step (seq 0 (List.length (options m))) m.

Fixpoint findDefault_from (i : nat) (os : list argObjBase) : target :=
  match os with
  | [] => no
  | a :: rest =>
      match isMe a None false, isMe a None true with
      | Some _, Some _ => registered i
      | _, _ => findDefault_from (S i) rest
      end
  end.

Definition findDefault (m : machine) : target :=
  findDefault_from 0 (options m).

Fixpoint findArg_from (i : nat) (os : list argObjBase) (s0 : string) (sl : bool)
  : option (nat * option string) :=
  match os with
  | [] => None
  | a :: rest =>
      match isMe a (Some s0) sl with
      | Some dl => Some (i, dl)
      | None => findArg_from (S i) rest s0 sl
      end
  end.

(** [argObjBase* findArg(const char* &d, const char* s, int sl)]: the
    position of the descriptor returned, with [d]; [None] is [nullptr]. *)
Definition findArg (m : machine) (s0 : string) (sl : bool)
  : option (nat * option string) :=
  findArg_from 0 (options m) s0 sl.

Definition allgood : errorState := mkErrorState ok None None.

(** The conditional of [proc] on the text [op1] after the first dash:
    [(op[1]=='-') ? findArg(delm, &op[2], 0) : findArg(delm, &op[1], 1)]. *)
Definition findArg_op (m : machine) (op1 : string)
  : option (nat * option string) :=
  match op1 with
  | String "-" op2 => findArg m op2 false
  | _ => findArg m op1 true
  end.

(** The loop of [proc] under a single [-]. *)
Fixpoint take_all (q : queue) (defOp : target) (m : machine)
  : errorState * queue * machine :=
  match q with
  | [] => (allgood, [], m)
  | val0 :: q' =>
      let '(r, m') := setMe defOp val0 m in
      if r then take_all q' defOp m'
      else (mkErrorState invalid None (Some val0), q', m')
  end.

(** Try to process an argument, poping as many arguments as needed.
    The result is the error state, the queue [l] and the machine afterwards.
    [l.front()] of an empty queue, when an option of arity 1 is the last
    token, is undefined.  The position [findArg_op] returns is inside the
    registry, so the [out_of_bounds] branch is never taken. *)
Definition proc (q : queue) (defOp : target) (m : machine)
  : outcome (errorState * queue * machine) :=
  match q with
  | [] => Undefined front_of_empty
  | op0 :: q =>
      match op0 with
      | EmptyString => Ret (allgood, q, m)
      | String "-" EmptyString => Ret (take_all q defOp m)
      | String "-" op1 =>
          match findArg_op m op1 with
          | None => Ret (mkErrorState unknown (Some op0) None, q, m)
          | Some (i, delm) =>
              let q := match delm with Some dl => dl :: q | None => q end in
              match nth_error (options m) i with
              | None => Undefined out_of_bounds
              | Some a =>
                  if numArgs a =? 0 then
                    let '(r, m') := setMe (registered i) "true" m in
                    Ret (if r then allgood
                         else mkErrorState invalid (Some op0) (Some "true"),
                         q, m')
                  else
                    match q with
                    | [] => Undefined front_of_empty
                    | val0 :: q =>
                        let '(r, m') := setMe (registered i) val0 m in
                        Ret (if r then allgood
                             else mkErrorState invalid (Some op0) (Some val0),
                             q, m')
                    end
              end
          end
      | _ =>
          let '(r, m') := setMe defOp op0 m in
          Ret (if r then allgood
               else mkErrorState invalid (Some "default list") (Some op0),
               q, m')
      end
  end.

(** Register a command line option: [options.push_front(new argObj<T>(...))]. *)
Definition option_ (T : ty) (variable : var)
  (s_short s_long s_help s_default : option string) (m : machine) : machine :=
  mkMachine (argObj T s_short s_long s_help s_default variable :: options m)
            (vars m) (calls m).

(** [while (c-- > 1) args.push_front( argv[c] );] with [n] the value of [c]
    before the test. *)
Fixpoint push_args (n : nat) (argv : list string) (args : queue) : outcome queue :=
  match n with
  | S (S _ as c) =>
      match nth_error argv c with
      | Some a => push_args c argv (a :: args)
      | None => Undefined out_of_bounds
      end
  | _ => Ret args
  end.

(** [while (!args.empty() && (r = proc(args, defOp)).state == ok) {}].
    [r] is [None] as long as it was never assigned. *)
Fixpoint run (fuel : nat) (args : queue) (defOp : target)
  (r : option errorState) (m : machine)
  : outcome (option errorState * queue * machine) :=
  match args with
  | [] => Ret (r, args, m)
  | _ :: _ =>
      match fuel with
      | O => OutOfFuel
      | S fuel' =>
          '(e, args', m') <- proc args defOp m ;;
          match state e with
          | ok => run fuel' args' defOp (Some e) m'
          | _ => Ret (Some e, args', m')
          end
      end
  end.

(** A bound on the iterations of the loop: every character and every
    terminator still in the queue. *)
Definition weight (q : queue) : nat :=
  fold_right (fun tok n => (S (String.length tok) + n)%nat) 0%nat q.

(** Populate variables given by [option_] from the commandline options. *)
Definition populate (c : Z) (argv : list string) (m : machine)
  : outcome (errorState * machine) :=
  args <- push_args (Z.to_nat c) argv [] ;;
  let defOp := findDefault m in
  '(r, _, m') <- run (weight args) args defOp None m ;;
  match r with
  | None => Undefined indeterminate_read
  | Some r =>
      match state r with
      | ok => Ret (r, setDefaults m')
      | _ => Ret (r, m')
      end
  end.

(** A target a pointer can hold: [no], or a descriptor of the registry. *)
Definition valid_target (a : target) (m : machine) : Prop :=
  match a with
  | no => True
  | registered i => (i < List.length (options m))%nat
  end.

(** The queue positions the loop of [populate] passes through: [reaches]
    relates the queue and machine before an iteration to those before a
    later one, all iterations in between having returned [ok]. *)
Inductive reaches (defOp : target) : queue * machine -> queue * machine -> Prop :=
| reaches_here (c : queue * machine) : reaches defOp c c
| reaches_next (q q1 : queue) (m m1 : machine) (e : errorState)
    (c : queue * machine) :
    proc q defOp m = Ret (e, q1, m1) ->
    state e = ok ->
    reaches defOp (q1, m1) c ->
    reaches defOp (q, m) c.

(** The values of [vs] handed one after the other to [setMe] of [a], each
    call returning [true]. *)
Inductive fed (a : target) : list string -> machine -> machine -> Prop :=
| fed_nil (m : machine) : fed a [] m m
| fed_cons (v0 : string) (vs : list string) (m m1 m2 : machine) :
    setMe a v0 m = (true, m1) ->
    fed a vs m1 m2 ->
    fed a (v0 :: vs) m m2.

End Options.

Arguments isMe : simpl never.
Arguments setMe : simpl never.
Arguments proc : simpl never.
Arguments findArg_op : simpl never.

(** ** Registration sequences *)

(** The arguments of one call of [option_]. *)
Record registration : Type := mkRegistration {
  r_type : ty;
  r_variable : var;
  r_short : option string;
  r_long : option string;
  r_help : option string;
  r_default : option string
}.

Definition descriptor (r : registration) : argObjBase :=
  argObj (r_type r) (r_short r) (r_long r) (r_help r) (r_default r) (r_variable r).

Definition register (m : machine) (r : registration) : machine :=
  option_ (r_type r) (r_variable r) (r_short r) (r_long r) (r_help r)
          (r_default r) m.

(** The calls of [option_], first to last. *)
Definition register_all (rs : list registration) (m : machine) : machine :=
  fold_left register rs m.

(** The input of the boolean converter after [std::transform]. *)
Definition lowered (s0 : string) : string := transform tolower s0.

(** What a caller of [populate] can tell apart of the bound-variable state:
    the kind of result and the machine. *)
Definition observe (x : outcome (errorState * machine))
  : outcome (errorstate_e * machine) :=
  omap (fun '(e, m) => (state e, m)) x.

Definition call_eq_dec (x y : target * string) : {x = y} + {x <> y}.
Proof.
  decide equality; [apply string_dec|].
  decide equality. apply Nat.eq_dec.
Defined.

(** The call [setDefaults] makes on the descriptor at position [i], if any:
    the test [a->seen == false && a->d != nullptr]. *)
Definition default_call (m : machine) (i : nat) : list (target * string) :=
  match nth_error (options m) i with
  | Some a =>
      match seen a, d (strings a) with
      | false, Some dflt => [(registered i, dflt)]
      | _, _ => []
      end
  | None => []
  end.

(** What a conversion that returns [false] has left in a variable of type
    [T] that held [old]: the scalar converters assign before they report,
    [strtol] gives 0 when it converts nothing, and a container is only
    pushed to on success. *)
Definition after_failure (T : ty) (old : value) : value :=
  match T with
  | TBool => VBool false
  | TInt => VInt 0
  | TString => old
  | TList _ => old
  end.

(** The converter of descriptor [b] never changes variable [v]. *)
Definition leaves (b : argObjBase) (v : var) : Prop :=
  forall (str : string) (st : store), snd (conv b str st) v = st v.

(** Every descriptor of [m] but the one at position [i] leaves [v] alone:
    no other registered option is bound to that variable. *)
Definition others_leave (i : nat) (v : var) (m : machine) : Prop :=
  forall j b, j <> i -> nth_error (options m) j = Some b -> leaves b v.

(** The five ways of the documentation to give [value] to an option with
    short spelling [sh] and long spelling [lg]. *)
Inductive form : Type :=
| long_equals      (* --long=value *)
| long_space       (* --long value *)
| short_joined     (* -shortvalue *)
| short_equals     (* -short=value *)
| short_space.     (* -short value *)

Definition tokens_of (f : form) (sh lg value : string) : list string :=
  match f with
  | long_equals => [("--" ++ lg ++ "=" ++ value)%string]
  | long_space => [("--" ++ lg)%string; value]
  | short_joined => [("-" ++ sh ++ value)%string]
  | short_equals => [("-" ++ sh ++ "=" ++ value)%string]
  | short_space => [("-" ++ sh)%string; value]
  end.

(** None of the descriptors [pre], which [findArg] visits first, answers
    [isMe] to the text [z]. *)
Definition passes_over (max_string_length : Z) (delims : list ascii)
  (pre : list argObjBase) (z : string) (sl : bool) : Prop :=
  Forall (fun b => isMe max_string_length delims b (Some z) sl = None) pre.

(** ** The registrations of the documentation *)

Definition reg_outfile : registration :=
  mkRegistration TString "outfile" (Some "o") (Some "outfile")
                 (Some "Output file name") (Some "out.dat").

Definition reg_count : registration :=
  mkRegistration TInt "count" (Some "c") (Some "count")
                 (Some "Number of loops") (Some "13").

Definition reg_ws : registration :=
  mkRegistration (TList TInt) "ws" (Some "w") (Some "w") (Some "w list") None.

Definition reg_infile : registration :=
  mkRegistration (TList TString) "infile" None None
                 (Some "Input file list") None.

(** [string outfile; int count; vector<string> infile; list<int> ws;]: the
    containers start empty; [init] is whatever the memory holds otherwise. *)
Definition declared (init : store) : store :=
  upd "ws" (VList []) (upd "infile" (VList []) (upd "outfile" (VString "") init)).

(** [arguments::options args;] after the four calls of [args.option]. *)
Definition documented (init : store) : machine :=
  register_all [reg_outfile; reg_count; reg_ws; reg_infile]
               (mkMachine [] (declared init) []).

(** [./test --outfile foo -c 4 -w 4 -w5 -w=4 -w:1 --w 6 bar1 bar2 bar3] *)
Definition documented_argv : list string :=
  ["./test"; "--outfile"; "foo"; "-c"; "4"; "-w"; "4"; "-w5"; "-w=4"; "-w:1";
   "--w"; "6"; "bar1"; "bar2"; "bar3"].

(** Memory that holds 7 in every [int]. *)
Definition sevens : store := fun _ => VInt 7.

(** A registry with a presence flag and an [int] whose default is not a
    number. *)
Definition reg_verbose : registration :=
  mkRegistration TBool "verbose" (Some "v") (Some "verbose") None None.

Definition reg_level : registration :=
  mkRegistration TInt "level" (Some "l") (Some "level") None (Some "abc").

Definition malformed : machine :=
  register_all [reg_level; reg_verbose] (mkMachine [] sevens []).

(** A second option that answers to the short spelling [w]. *)
Definition reg_width : registration :=
  mkRegistration TInt "width" (Some "w") (Some "width") None None.

(** The value of a variable in the machine a parse returned. *)
Definition final_var (x : outcome (errorstate_e * machine)) (v : var)
  : option value :=
  match x with
  | Ret (_, m) => Some (vars m v)
  | _ => None
  end.

(** ** Tokens, registries and output *)

(** A token that [proc] hands to the default consumer: not empty, and its
    first character is not a dash. *)
Definition plain (tok : string) : Prop :=
  match tok with
  | String c _ => c <> "-"%char
  | EmptyString => False
  end.

(** Descriptor [b] is descriptor [a] some steps later: the same strings, the
    same arity, the same conversion, and a [seen] flag that was not cleared. *)
Definition same_descriptor (a b : argObjBase) : Prop :=
  strings b = strings a /\ numArgs b = numArgs a /\ conv b = conv a /\
  (seen a = true -> seen b = true).

Definition same_registry (m m' : machine) : Prop :=
  Forall2 same_descriptor (options m) (options m').


Definition newline : string := String "010"%char "".
Definition tab : string := String "009"%char "".

(** A stream [O& o] is the text written to it so far; [o << x] appends. *)

(** [(p ? p : "(null)")] *)
Definition or_null (p : option string) : string :=
  match p with
  | Some x => x
  | None => "(null)"
  end.

(** Stream operator to output the option, help and default:
    [operator<<(O& o, arguments::argStrings* a)]. *)
Definition print_argStrings (o : string) (a : argStrings) : string :=
  match s a, l a with
  | None, None => o
  | _, _ =>
      let o := match s a with Some x => o ++ "  -" ++ x | None => o end in
      let o := match s a, l a with Some _, Some _ => o ++ ", " | _, _ => o end in
      let o := match l a with Some x => o ++ "--" ++ x | None => o end in
      let o := match h a with Some x => o ++ tab ++ x | None => o end in
      let o := match d a with
               | Some (String c rest) =>
                   o ++ " (default: '" ++ String c rest ++ "')"
               | _ => o
               end in
      o ++ newline
  end%string.

(** Stream operator to output all the options. *)
Definition print_options (o : string) (m : machine) : string :=
  fold_left (fun o a => print_argStrings o (strings a)) (options m) o.

(** Stream operator to output an error. *)
Definition print_errorState (o : string) (e : errorState) : string :=
  match state e with
  | ok => o ++ "No error"
  | invalid =>
      o ++ "Invalid Value: '" ++ or_null (val e) ++ "' for option '"
        ++ or_null (op e) ++ "'"
  | unknown => o ++ "Unknown Option: '" ++ or_null (op e) ++ "'"
  end%string.

(** [static bool help] of [populateWithHelp]: a variable of the store under a
    name of its own, false when the program starts, never reset. *)
Definition help_static : var := "populateWithHelp::help".

(** The value of a [bool] variable. *)
Definition truth (v : value) : bool :=
  match v with
  | VBool b => b
  | _ => false
  end.

(** Boiler plate for quick default usage and help (see [populate]): the
    return value, the stream [os] and the machine afterwards. *)
Definition populateWithHelp (max_string_length : Z) (delims : list ascii)
  (argc : Z) (argv : list string) (os : string) (usage : string) (m : machine)
  : outcome (bool * string * machine) :=
  let m := option_ TBool help_static (Some "h") (Some "help")
                   (Some "Display help.") None m in
  '(e, m') <- populate max_string_length delims argc argv m ;;
  if negb (isOk e) then
    Ret (true, (print_errorState os e ++ newline)%string, m')
  else if truth (vars m' help_static) then
    let os := if String.eqb usage "" then os
              else (os ++ usage ++ newline)%string in
    Ret (true, (print_options os m' ++ newline)%string, m')
  else Ret (false, os, m').

(** The calls of a setter the engine makes: the default consumer with any
    token; a descriptor of arity 0 with "true"; a descriptor of another arity
    with a value token; an unseen descriptor with its default string. *)
Definition permitted (defOp : target) (m : machine) (a : target)
  (v0 : string) : Prop :=
  a = defOp \/
  exists i o,
    a = registered i /\ nth_error (options m) i = Some o /\
    ((numArgs o = 0 /\ v0 = "true") \/
     numArgs o <> 0 \/
     (seen o = false /\ d (strings o) = Some v0)).

(** The descriptor [populateWithHelp] registers. *)
Definition help_descriptor : argObjBase :=
  argObj TBool (Some "h") (Some "help") (Some "Display help.") None help_static.

(** The registry after [option( help, "h", "help", "Display help.", nullptr )],
    the first statement of [populateWithHelp]. *)
Definition with_help (m : machine) : machine :=
  option_ TBool help_static (Some "h") (Some "help") (Some "Display help.")
          None m.

(** The text a descriptor adds to the listing of the options. *)
Definition listing_line (a : argObjBase) : string :=
  print_argStrings "" (strings a).

(** The setter calls [cs] made one after the other, first to last. *)
Definition replay (cs : list (target * string)) (m : machine) : machine :=
  fold_left (fun m1 c => snd (setMe (fst c) (snd c) m1)) cs m.

(** ** Properties *)

Section Properties.

Variable max_string_length : Z.
Variable delims : list ascii.

Local Abbreviation isMe := (isMe max_string_length delims).
Local Abbreviation findArg := (findArg max_string_length delims).
Local Abbreviation findArg_from := (findArg_from max_string_length delims).
Local Abbreviation findDefault := (findDefault max_string_length delims).
Local Abbreviation findArg_op := (findArg_op max_string_length delims).
Local Abbreviation proc := (proc max_string_length delims).
Local Abbreviation run := (run max_string_length delims).
Local Abbreviation populate := (populate max_string_length delims).
Local Abbreviation reaches := (reaches max_string_length delims).
Local Abbreviation passes_over := (passes_over max_string_length delims).
Local Abbreviation isDelim := (isDelim delims).

(** *** Lists and [setMe] *)

Lemma length_replace {A : Type} (i : nat) (x : A) (xs : list A) :
  List.length (replace i x xs) = List.length xs.
Proof.
  revert i. induction xs as [|y xs IH]; intros [|i]; simpl; auto.
Qed.

Lemma nth_error_replace_same {A : Type} (i : nat) (x : A) (xs : list A) :
  (i < List.length xs)%nat -> nth_error (replace i x xs) i = Some x.
Proof.
  revert i. induction xs as [|y xs IH]; intros [|i] Hi; simpl in *;
    try lia; auto.
  apply IH. lia.
Qed.

Lemma nth_error_replace_other {A : Type} (i j : nat) (x : A) (xs : list A) :
  i <> j -> nth_error (replace i x xs) j = nth_error xs j.
Proof.
  revert i j. induction xs as [|y xs IH]; intros [|i] [|j] Hij; simpl;
    try congruence; auto.
Qed.

Lemma setMe_no (s0 : string) (m : machine) :
  setMe no s0 m = (false, mkMachine (options m) (vars m) (calls m ++ [(no, s0)])).
Proof. reflexivity. Qed.

Lemma setMe_registered (i : nat) (o : argObjBase) (s0 : string) (m : machine) :
  nth_error (options m) i = Some o ->
  setMe (registered i) s0 m =
  (fst (conv o s0 (vars m)),
   mkMachine (replace i (mark_seen o) (options m)) (snd (conv o s0 (vars m)))
             (calls m ++ [(registered i, s0)])).
Proof.
  intros Hi. unfold setMe. rewrite Hi.
  destruct (conv o s0 (vars m)); reflexivity.
Qed.

Lemma setMe_calls (a : target) (s0 : string) (m : machine) :
  valid_target a m ->
  calls (snd (setMe a s0 m)) = calls m ++ [(a, s0)].
Proof.
  destruct a as [i|]; simpl; intros Hv.
  - destruct (nth_error (options m) i) as [o|] eqn:Hi.
    + rewrite (setMe_registered _ _ _ _ Hi). reflexivity.
    + apply nth_error_None in Hi. lia.
  - reflexivity.
Qed.

Lemma setMe_length (a : target) (s0 : string) (m : machine) :
  List.length (options (snd (setMe a s0 m))) = List.length (options m).
Proof.
  destruct a as [i|]; [|reflexivity].
  unfold setMe. destruct (nth_error (options m) i) as [o|]; [|reflexivity].
  destruct (conv o s0 (vars m)); simpl. apply length_replace.
Qed.

Lemma setMe_valid (a b : target) (s0 : string) (m : machine) :
  valid_target b m -> valid_target b (snd (setMe a s0 m)).
Proof.
  destruct b as [j|]; simpl; auto. rewrite setMe_length. auto.
Qed.

(** *** The registry and the first match *)

Lemma register_all_options (rs : list registration) (m : machine) :
  options (register_all rs m) = rev (map descriptor rs) ++ options m.
Proof.
  unfold register_all. revert m.
  induction rs as [|r rs IH]; intros m; simpl.
  - reflexivity.
  - rewrite IH. simpl. rewrite <- app_assoc. reflexivity.
Qed.

Lemma findArg_from_first (pre post : list argObjBase) (a : argObjBase)
  (z : string) (sl : bool) (dl : option string) (i : nat) :
  Forall (fun b => isMe b (Some z) sl = None) pre ->
  isMe a (Some z) sl = Some dl ->
  findArg_from i (pre ++ a :: post) z sl = Some ((i + List.length pre)%nat, dl).
Proof.
  intros Hpre Ha. revert i.
  induction Hpre as [|b pre Hb _ IH]; intros i; simpl.
  - rewrite Ha. f_equal. f_equal. lia.
  - rewrite Hb. rewrite IH. f_equal. f_equal. lia.
Qed.

Lemma findArg_from_none (os : list argObjBase) (z : string) (sl : bool) (i : nat) :
  Forall (fun b => isMe b (Some z) sl = None) os ->
  findArg_from i os z sl = None.
Proof.
  intros Hos. revert i.
  induction Hos as [|b os Hb _ IH]; intros i; simpl.
  - reflexivity.
  - rewrite Hb. apply IH.
Qed.

Lemma findArg_from_inv (os : list argObjBase) (z : string) (sl : bool)
  (i j : nat) (dl : option string) :
  findArg_from i os z sl = Some (j, dl) ->
  exists pre a post,
    os = pre ++ a :: post /\ j = (i + List.length pre)%nat /\
    Forall (fun b => isMe b (Some z) sl = None) pre /\
    isMe a (Some z) sl = Some dl.
Proof.
  revert i.
  induction os as [|b os IH]; intros i Hf; simpl in Hf.
  - discriminate.
  - destruct (isMe b (Some z) sl) as [dl'|] eqn:Hb.
    + inversion Hf; subst.
      exists [], b, os. simpl. repeat split; auto; lia.
    + destruct (IH _ Hf) as (pre & a & post & -> & -> & Hpre & Ha).
      exists (b :: pre), a, post. simpl. repeat split; auto; lia.
Qed.

(** C8. Registration prepends, so the registry iterates in the reverse of the
    registration order; and among the registered descriptors that match a
    token, [findArg] returns the first in iteration order, which is the one
    registered last: whatever was registered before [r], if [r] matches and
    nothing registered after it does, [findArg] returns [r]. *)
Theorem registry_reversed_first_match_wins
  (regs1 regs2 : list registration) (r : registration) (m0 : machine)
  (z : string) (sl : bool) (dl : option string) :
  options m0 = [] ->
  isMe (descriptor r) (Some z) sl = Some dl ->
  Forall (fun r' => isMe (descriptor r') (Some z) sl = None) regs2 ->
  let m := register_all (regs1 ++ r :: regs2) m0 in
  options m = rev (map descriptor (regs1 ++ r :: regs2)) /\
  findArg m z sl = Some (List.length regs2, dl) /\
  nth_error (options m) (List.length regs2) = Some (descriptor r).
Proof.
  intros Hm0 Hr Hlater m.
  assert (Hopts : options m = rev (map descriptor (regs1 ++ r :: regs2))).
  { unfold m. rewrite register_all_options, Hm0, app_nil_r. reflexivity. }
  assert (Hsplit : options m =
                   rev (map descriptor regs2) ++
                   descriptor r :: rev (map descriptor regs1)).
  { rewrite Hopts, map_app, rev_app_distr. simpl.
    rewrite <- app_assoc. reflexivity. }
  assert (Hlen : List.length (rev (map descriptor regs2)) = List.length regs2).
  { rewrite length_rev, length_map. reflexivity. }
  split; [exact Hopts|]. split.
  - unfold arguments.findArg. rewrite Hsplit.
    rewrite (findArg_from_first _ _ _ _ _ dl); [rewrite Hlen; reflexivity| |exact Hr].
    apply Forall_rev. apply Forall_map. exact Hlater.
  - rewrite Hsplit, nth_error_app2; rewrite Hlen; [|lia].
    rewrite Nat.sub_diag. reflexivity.
Qed.

(** *** The converters *)

(** C3, as the code has it. The boolean converter compares the lower-cased
    input with eight spellings: on "1", "true", "yes", "enable" it returns
    success and writes true; on "0", "false", "no", "disable" it returns
    success and writes false; on every other input it returns failure, and
    the bound variable is then false, whatever it held before. *)
Theorem fromString_bool_spellings (v : var) (s0 : string) (st : store) :
  exists r b,
    assign TBool v s0 st = (r, upd v (VBool b) st) /\
    ((In (lowered s0) ["1"; "true"; "yes"; "enable"] /\ r = true /\ b = true) \/
     (In (lowered s0) ["0"; "false"; "no"; "disable"] /\ r = true /\ b = false) \/
     (~ In (lowered s0) ["1"; "true"; "yes"; "enable";
                        "0"; "false"; "no"; "disable"] /\
      r = false /\ b = false)).
Proof.
  unfold assign, fromString, fromString_bool, lowered.
  set (w := transform tolower s0).
  destruct (String.eqb w "1") eqn:E1;
    [apply String.eqb_eq in E1; do 2 eexists; split; [reflexivity|]; left;
     rewrite E1; simpl; auto 10 | apply String.eqb_neq in E1].
  destruct (String.eqb w "true") eqn:E2;
    [apply String.eqb_eq in E2; do 2 eexists; split; [reflexivity|]; left;
     rewrite E2; simpl; auto 10 | apply String.eqb_neq in E2].
  destruct (String.eqb w "yes") eqn:E3;
    [apply String.eqb_eq in E3; do 2 eexists; split; [reflexivity|]; left;
     rewrite E3; simpl; auto 10 | apply String.eqb_neq in E3].
  destruct (String.eqb w "enable") eqn:E4;
    [apply String.eqb_eq in E4; do 2 eexists; split; [reflexivity|]; left;
     rewrite E4; simpl; auto 10 | apply String.eqb_neq in E4].
  destruct (String.eqb w "0") eqn:E5;
    [apply String.eqb_eq in E5; do 2 eexists; split; [reflexivity|]; right; left;
     rewrite E5; simpl; auto 10 | apply String.eqb_neq in E5].
  destruct (String.eqb w "false") eqn:E6;
    [apply String.eqb_eq in E6; do 2 eexists; split; [reflexivity|]; right; left;
     rewrite E6; simpl; auto 10 | apply String.eqb_neq in E6].
  destruct (String.eqb w "no") eqn:E7;
    [apply String.eqb_eq in E7; do 2 eexists; split; [reflexivity|]; right; left;
     rewrite E7; simpl; auto 10 | apply String.eqb_neq in E7].
  destruct (String.eqb w "disable") eqn:E8;
    [apply String.eqb_eq in E8; do 2 eexists; split; [reflexivity|]; right; left;
     rewrite E8; simpl; auto 10 | apply String.eqb_neq in E8].
  do 2 eexists; split; [reflexivity|]. right; right.
  split; [|split; reflexivity].
  simpl. intros [H|[H|[H|[H|[H|[H|[H|[H|[]]]]]]]]]; congruence.
Qed.

(** *** The loop terminates: fuel *)

Lemma isMe_loop_length (x y x' y' : string) (n : Z) :
  isMe_loop max_string_length x y n = Some (x', y') ->
  (String.length x' <= String.length x)%nat.
Proof.
  revert y n. induction x as [|cx x IH]; intros y n Hl; simpl in Hl.
  - inversion Hl; subst. simpl; lia.
  - destruct y as [|cy y]; [inversion Hl; subst; simpl; lia|].
    destruct (n <? max_string_length); [|inversion Hl; subst; simpl; lia].
    destruct (Ascii.eqb cx cy); [|discriminate].
    apply IH in Hl. simpl. lia.
Qed.

Lemma isMe_delm_length (a : argObjBase) (z dl : string) (sl : bool) :
  isMe a (Some z) sl = Some (Some dl) ->
  (String.length dl <= String.length z)%nat.
Proof.
  unfold arguments.isMe.
  destruct (if sl then s (strings a) else l (strings a)) as [y|]; [|discriminate].
  destruct (isMe_loop max_string_length z y 0) as [[x' y']|] eqn:Hl; [|discriminate].
  apply isMe_loop_length in Hl.
  destruct y'; [|discriminate].
  destruct x' as [|c rest]; [discriminate|]. simpl in Hl.
  destruct sl.
  - destruct (isDelim c); intros H; inversion H; subst; simpl; lia.
  - destruct (isDelim c); intros H; inversion H; subst; simpl; lia.
Qed.

Lemma findArg_delm_length (m : machine) (z dl : string) (sl : bool) (i : nat) :
  findArg m z sl = Some (i, Some dl) ->
  (String.length dl <= String.length z)%nat.
Proof.
  intros Hf. apply findArg_from_inv in Hf.
  destruct Hf as (pre & a & post & _ & _ & _ & Ha).
  eapply isMe_delm_length; eauto.
Qed.

Lemma take_all_weight (q q' : queue) (defOp : target) (m m' : machine)
  (e : errorState) :
  take_all q defOp m = (e, q', m') -> (weight q' <= weight q)%nat.
Proof.
  revert m. induction q as [|v0 q IH]; intros m Ht; simpl in Ht.
  - inversion Ht; subst. simpl; lia.
  - destruct (setMe defOp v0 m) as [[|] m1].
    + apply IH in Ht. simpl. lia.
    + inversion Ht; subst. simpl. lia.
Qed.

Lemma proc_weight (q q' : queue) (defOp : target) (m m' : machine)
  (e : errorState) :
  proc q defOp m = Ret (e, q', m') -> (weight q' < weight q)%nat.
Proof.
  destruct q as [|op0 q]; [discriminate|].
  unfold arguments.proc.
  destruct op0 as [|c0 op1]; [intros H; inversion H; subst; simpl; lia|].
  assert (Hplain : forall r0 : errorState * queue * machine,
             (let '(r, m1) := setMe defOp (String c0 op1) m in
              Ret (if r then allgood
                   else mkErrorState invalid (Some "default list")
                                     (Some (String c0 op1)), q, m1)) = Ret r0 ->
             r0 = (e, q', m') -> (weight q' < weight (String c0 op1 :: q))%nat).
  { intros r0 H Hr. destruct (setMe defOp (String c0 op1) m) as [r m1].
    inversion H; subst. inversion H1; subst. simpl. lia. }
  destruct c0 as [[] [] [] [] [] [] [] []];
    try (intros H; eapply Hplain; [exact H|reflexivity]).
  clear Hplain.
  destruct op1 as [|c1 op2].
  { intros H. inversion H as [Ht]. apply take_all_weight in Ht. simpl. lia. }
  assert (Hfound : forall i dl,
             findArg_op m (String c1 op2) = Some (i, Some dl) ->
             (String.length dl <= String.length (String c1 op2))%nat).
  { intros i dl. unfold arguments.findArg_op.
    destruct c1 as [[] [] [] [] [] [] [] []];
      intros Hf; apply findArg_delm_length in Hf; simpl in *; lia. }
  destruct (findArg_op m (String c1 op2)) as [[i delm]|];
    [|intros H; inversion H; subst; simpl; lia].
  assert (Hq : (weight (match delm with Some dl => dl :: q | None => q end)
                < weight (String "-" (String c1 op2) :: q))%nat).
  { destruct delm as [dl|].
    - specialize (Hfound i dl eq_refl). simpl in *. lia.
    - simpl. lia. }
  clear Hfound.
  destruct (nth_error (options m) i) as [a|]; [|discriminate].
  destruct (numArgs a =? 0).
  - destruct (setMe (registered i) "true" m) as [r m1].
    intros H; inversion H; subst. exact Hq.
  - destruct delm as [dl|].
    + destruct (setMe (registered i) dl m) as [r m1].
      intros H; inversion H; subst. simpl in *. lia.
    + destruct q as [|val0 q1]; [discriminate|].
      destruct (setMe (registered i) val0 m) as [r m1].
      intros H; inversion H; subst. simpl in *. lia.
Qed.

Lemma proc_fuel_free (q : queue) (defOp : target) (m : machine) :
  proc q defOp m <> OutOfFuel.
Proof.
  unfold arguments.proc.
  repeat match goal with
         | |- context [match ?x with _ => _ end] => destruct x
         end; discriminate.
Qed.

Lemma run_fuel (f f' : nat) (q : queue) (defOp : target)
  (r : option errorState) (m : machine) :
  (weight q <= f)%nat -> (weight q <= f')%nat ->
  run f q defOp r m = run f' q defOp r m.
Proof.
  revert f' q r m. induction f as [|f IH]; intros f' q r m Hf Hf'.
  - destruct q; simpl in Hf; [|lia]. destruct f'; reflexivity.
  - destruct q as [|tok q]; [destruct f'; reflexivity|].
    destruct f' as [|f']; [simpl in Hf'; lia|].
    simpl. destruct (proc (tok :: q) defOp m) as [[[e q1] m1]| |] eqn:Hp;
      simpl; try reflexivity.
    apply proc_weight in Hp.
    destruct (state e); try reflexivity.
    apply IH; lia.
Qed.

(** The fuel [populate] passes is enough: the loop never runs out. *)
Lemma run_terminates (f : nat) (q : queue) (defOp : target)
  (r : option errorState) (m : machine) :
  (weight q <= f)%nat -> run f q defOp r m <> OutOfFuel.
Proof.
  revert q r m. induction f as [|f IH]; intros q r m Hf.
  - destruct q; simpl in Hf; [|lia]. discriminate.
  - destruct q as [|tok q]; [discriminate|].
    simpl. destruct (proc (tok :: q) defOp m) as [[[e q1] m1]| |] eqn:Hp;
      simpl; try discriminate; [|exfalso; exact (proc_fuel_free _ _ _ Hp)].
    apply proc_weight in Hp.
    destruct (state e); try discriminate.
    apply IH; lia.
Qed.

Lemma run_step (q q1 : queue) (defOp : target) (r : option errorState)
  (m m1 : machine) (e : errorState) :
  proc q defOp m = Ret (e, q1, m1) -> state e = ok ->
  run (weight q) q defOp r m = run (weight q1) q1 defOp (Some e) m1.
Proof.
  intros Hp He. pose proof (proc_weight _ _ _ _ _ _ Hp) as Hw.
  destruct q as [|tok q]; [discriminate|].
  destruct (weight (tok :: q)) as [|f] eqn:Hwq; [lia|].
  simpl. rewrite Hp. simpl. rewrite He.
  apply run_fuel; lia.
Qed.

Lemma run_stop (q q1 : queue) (defOp : target) (r : option errorState)
  (m m1 : machine) (e : errorState) :
  proc q defOp m = Ret (e, q1, m1) -> state e <> ok ->
  run (weight q) q defOp r m = Ret (Some e, q1, m1).
Proof.
  intros Hp He. pose proof (proc_weight _ _ _ _ _ _ Hp) as Hw.
  destruct q as [|tok q]; [discriminate|].
  destruct (weight (tok :: q)) as [|f] eqn:Hwq; [lia|].
  simpl. rewrite Hp. simpl. destruct (state e); congruence.
Qed.

Lemma run_reaches (defOp : target) (c c' : queue * machine) :
  reaches defOp c c' ->
  forall r, exists r',
    run (weight (fst c)) (fst c) defOp r (snd c) =
    run (weight (fst c')) (fst c') defOp r' (snd c').
Proof.
  induction 1 as [c|q q1 m m1 e c Hp He _ IH]; intros r.
  - exists r. reflexivity.
  - destruct (IH (Some e)) as [r' Hr']. exists r'.
    simpl in *. rewrite (run_step _ _ _ r _ _ _ Hp He). exact Hr'.
Qed.

(** [populate] never reports exhausted fuel: the bound it passes is enough. *)
Lemma populate_fuel_free (c : Z) (argv : list string) (m : machine) :
  populate c argv m <> OutOfFuel.
Proof.
  unfold arguments.populate.
  assert (Hpush : forall n acc,
             arguments.push_args n argv acc <> OutOfFuel).
  { induction n as [|n IH]; intros acc; [discriminate|].
    destruct n as [|n]; [discriminate|].
    change (arguments.push_args (S (S n)) argv acc)
      with (match nth_error argv (S n) with
            | Some a => arguments.push_args (S n) argv (a :: acc)
            | None => Undefined out_of_bounds
            end).
    destruct (nth_error argv (S n)); [apply IH|discriminate]. }
  destruct (push_args (Z.to_nat c) argv []) as [args| |] eqn:Hargs;
    cbn [bind]; [|discriminate|exfalso; exact (Hpush _ _ Hargs)].
  pose proof (run_terminates (weight args) args (findDefault m) None m
                (Nat.le_refl _)) as Hrun.
  destruct (run (weight args) args (findDefault m) None m)
    as [[[[r|] q] m']| |]; cbn [bind]; try discriminate; [|congruence].
  destruct (state r); discriminate.
Qed.

(** The default consumer is [no] or a descriptor of the registry, and stays
    one while the loop runs. *)
Lemma findDefault_valid (m : machine) : valid_target (findDefault m) m.
Proof.
  unfold arguments.findDefault.
  assert (H : forall os i,
             match findDefault_from max_string_length delims i os with
             | registered j => (j < i + List.length os)%nat
             | no => True
             end).
  { induction os as [|a os IH]; intros i; simpl; [exact I|].
    destruct (isMe a None false); [destruct (isMe a None true)|];
      try (specialize (IH (S i));
           destruct (findDefault_from max_string_length delims (S i) os);
           [lia|exact I]).
    lia. }
  specialize (H (options m) 0%nat).
  destruct (findDefault_from max_string_length delims 0 (options m));
    simpl; [lia|exact I].
Qed.

Lemma take_all_length (q q' : queue) (defOp : target) (m m' : machine)
  (e : errorState) :
  take_all q defOp m = (e, q', m') ->
  List.length (options m') = List.length (options m).
Proof.
  revert m. induction q as [|v0 q IH]; intros m Ht; simpl in Ht.
  - inversion Ht; subst. reflexivity.
  - pose proof (setMe_length defOp v0 m) as Hlen.
    destruct (setMe defOp v0 m) as [[|] m1]; simpl in Hlen.
    + rewrite (IH _ Ht). exact Hlen.
    + inversion Ht; subst. exact Hlen.
Qed.

Lemma proc_length (q q' : queue) (defOp : target) (m m' : machine)
  (e : errorState) :
  proc q defOp m = Ret (e, q', m') ->
  List.length (options m') = List.length (options m).
Proof.
  unfold arguments.proc.
  repeat match goal with
         | |- context [match ?x with _ => _ end] =>
             match x with
             | setMe _ _ _ => fail 1
             | take_all _ _ _ => fail 1
             | _ => destruct x
             end
         end;
    try discriminate;
    try (intros H; inversion H; subst; reflexivity);
    try (intros H; inversion H as [Ht]; exact (take_all_length _ _ _ _ _ _ Ht));
    match goal with
    | |- context [setMe ?a ?v0 ?m0] =>
        pose proof (setMe_length a v0 m0) as Hlen;
        destruct (setMe a v0 m0) as [r m1]; simpl in Hlen;
        intros H; inversion H; subst; exact Hlen
    end.
Qed.

Lemma reaches_valid (defOp t : target) (c c' : queue * machine) :
  reaches defOp c c' -> valid_target t (snd c) -> valid_target t (snd c').
Proof.
  induction 1 as [c|q q1 m m1 e c Hp _ _ IH]; intros Hv; [exact Hv|].
  apply IH. simpl in *. destruct t as [j|]; simpl in *; [|exact I].
  rewrite (proc_length _ _ _ _ _ _ Hp). exact Hv.
Qed.

(** *** The equations of [proc] *)

Lemma proc_single_dash (q : queue) (defOp : target) (m : machine) :
  proc ("-" :: q) defOp m = Ret (take_all q defOp m).
Proof. reflexivity. Qed.

Lemma proc_option_token (c1 : ascii) (op2 : string) (q : queue)
  (defOp : target) (m : machine) :
  proc (String "-" (String c1 op2) :: q) defOp m =
  match findArg_op m (String c1 op2) with
  | None => Ret (mkErrorState unknown (Some (String "-" (String c1 op2))) None, q, m)
  | Some (i, delm) =>
      let q := match delm with Some dl => dl :: q | None => q end in
      match nth_error (options m) i with
      | None => Undefined out_of_bounds
      | Some a =>
          if numArgs a =? 0 then
            let '(r, m') := setMe (registered i) "true" m in
            Ret (if r then allgood
                 else mkErrorState invalid (Some (String "-" (String c1 op2)))
                                   (Some "true"), q, m')
          else
            match q with
            | [] => Undefined front_of_empty
            | val0 :: q =>
                let '(r, m') := setMe (registered i) val0 m in
                Ret (if r then allgood
                     else mkErrorState invalid
                            (Some (String "-" (String c1 op2))) (Some val0),
                     q, m')
            end
      end
  end.
Proof. reflexivity. Qed.

(** *** No tokens at all *)

(** C10, on the code. With an argument count of at most one the queue is
    empty, the loop of [populate] never assigns [r], and the test
    [r.state == ok] after the loop reads a variable that was never written:
    the call has no defined result, and so no defined [Ok]. *)
Theorem populate_without_tokens_reads_unset_result
  (c : Z) (argv : list string) (m : machine) :
  c <= 1 -> populate c argv m = Undefined indeterminate_read.
Proof.
  intros Hc. unfold arguments.populate.
  assert (Hn : (Z.to_nat c <= 1)%nat) by lia.
  destruct (Z.to_nat c) as [|[|n]]; [reflexivity|reflexivity|lia].
Qed.

(** *** Unknown options *)

(** C5, as the code has it. When the loop of [populate] comes to a token
    (every earlier step was [ok] and none took the token as a value) that
    starts with a dash, has more characters, and whose spelling [findArg]
    matches with no descriptor, the parse returns [unknown] with that very
    token as operand; the tokens after it stay in the queue, and the machine
    returned is the one the earlier tokens left: nothing is rolled back,
    nothing more is set, no default is applied. *)
Theorem unknown_option_halts
  (c : Z) (argv : list string) (m : machine) (args : queue)
  (op1 : string) (post : queue) (m1 : machine) :
  push_args (Z.to_nat c) argv [] = Ret args ->
  reaches (findDefault m) (args, m) (String "-" op1 :: post, m1) ->
  op1 <> "" ->
  findArg_op m1 op1 = None ->
  let e := mkErrorState unknown (Some (String "-" op1)) None in
  run (weight args) args (findDefault m) None m = Ret (Some e, post, m1) /\
  populate c argv m = Ret (e, m1).
Proof.
  intros Hargs Hreach Hop Hfind e.
  assert (Hp : proc (String "-" op1 :: post) (findDefault m) m1 = Ret (e, post, m1)).
  { destruct op1 as [|c1 op2]; [congruence|].
    rewrite proc_option_token, Hfind. reflexivity. }
  destruct (run_reaches _ _ _ Hreach None) as [r' Hr']. cbn [fst snd] in Hr'.
  assert (Hrun : run (weight args) args (findDefault m) None m =
                 Ret (Some e, post, m1)).
  { rewrite Hr'. apply run_stop; [exact Hp|discriminate]. }
  split; [exact Hrun|].
  unfold arguments.populate. rewrite Hargs. cbn [bind].
  rewrite Hrun. reflexivity.
Qed.

(** *** Presence flags *)

(** C9. A token that [findArg] resolves to a registered [argObj<bool>] makes
    [proc] call the setter of that descriptor with the literal "true" and
    nothing else; the call succeeds and leaves the bound variable true.  The
    queue afterwards is the queue that followed the token, with at most the
    embedded fragment of the token itself put in front: no following token
    is consumed. *)
Theorem boolean_flag_sets_true_consumes_nothing
  (m : machine) (defOp : target) (op1 : string) (rest : queue)
  (i : nat) (delm : option string) (a : argObjBase) (v : var) :
  op1 <> "" ->
  findArg_op m op1 = Some (i, delm) ->
  nth_error (options m) i = Some a ->
  isArgObj TBool v a ->
  exists m',
    proc (String "-" op1 :: rest) defOp m =
      Ret (allgood, match delm with Some dl => dl :: rest | None => rest end, m') /\
    vars m' v = VBool true /\
    calls m' = calls m ++ [(registered i, "true")] /\
    nth_error (options m') i = Some (mark_seen a).
Proof.
  intros Hop Hfind Hi [Hn Hc].
  destruct op1 as [|c1 op2]; [congruence|].
  rewrite proc_option_token, Hfind. simpl. rewrite Hi, Hn. simpl.
  rewrite (setMe_registered _ _ _ _ Hi), Hc. simpl.
  eexists. split; [reflexivity|]. simpl.
  split; [|split; [reflexivity|]].
  - unfold upd. rewrite String.eqb_refl. reflexivity.
  - apply nth_error_replace_same. apply nth_error_Some. congruence.
Qed.

(** *** A single dash *)

Lemma take_all_fed (a : target) (vs : list string) (m m' : machine) :
  fed a vs m m' -> take_all vs a m = (allgood, [], m').
Proof.
  induction 1 as [m|v0 vs m m1 m2 Hset _ IH]; simpl.
  - reflexivity.
  - rewrite Hset. exact IH.
Qed.

Lemma take_all_fails (a : target) (taken post : list string) (v0 : string)
  (m m1 m2 : machine) :
  fed a taken m m1 ->
  setMe a v0 m1 = (false, m2) ->
  take_all (taken ++ v0 :: post) a m =
  (mkErrorState invalid None (Some v0), post, m2).
Proof.
  induction 1 as [m|w ws m m1 m1' Hset _ IH]; intros Hfail; simpl.
  - rewrite Hfail. reflexivity.
  - rewrite Hset. apply IH. exact Hfail.
Qed.

Lemma fed_calls (a : target) (vs : list string) (m m' : machine) :
  fed a vs m m' -> valid_target a m ->
  valid_target a m' /\ calls m' = calls m ++ map (pair a) vs.
Proof.
  induction 1 as [m|v0 vs m m1 m2 Hset _ IH]; intros Hv; simpl.
  - rewrite app_nil_r. auto.
  - assert (Hm1 : m1 = snd (setMe a v0 m)) by (rewrite Hset; reflexivity).
    destruct IH as [Hv2 Hc].
    { rewrite Hm1. apply setMe_valid. exact Hv. }
    split; [exact Hv2|].
    rewrite Hc, Hm1, setMe_calls by exact Hv.
    rewrite <- app_assoc. reflexivity.
Qed.

Lemma fed_or_fails (a : target) (rest : list string) (m : machine) :
  (exists m', fed a rest m m') \/
  (exists taken v0 post m1 m2,
     rest = taken ++ v0 :: post /\ fed a taken m m1 /\
     setMe a v0 m1 = (false, m2)).
Proof.
  revert m. induction rest as [|v0 rest IH]; intros m.
  - left. exists m. constructor.
  - destruct (setMe a v0 m) as [[|] m1] eqn:Hset.
    + destruct (IH m1) as [[m' Hfed]|(taken & w & post & m2 & m3 & -> & Hfed & Hfail)].
      * left. exists m'. econstructor; eauto.
      * right. exists (v0 :: taken), w, post, m2, m3.
        repeat split; auto. econstructor; eauto.
    + right. exists [], v0, rest, m, m1. repeat split; auto. constructor.
Qed.

(** C7. When [proc] pops a single dash, every token still in the queue is
    handed to the setter of the default consumer, one at a time and in queue
    order, whatever the token looks like.  Either every call succeeds, the
    queue is emptied and the step is [ok]; or the first call that fails ends
    the step and the loop with [invalid], the offending value as [val], and
    the tokens after it left in the queue.  One of the two always applies. *)
Theorem single_dash_feeds_the_rest
  (defOp : target) (m : machine) (r : option errorState) :
  valid_target defOp m ->
  (forall rest m',
      fed defOp rest m m' ->
      proc ("-" :: rest) defOp m = Ret (allgood, [], m') /\
      calls m' = calls m ++ map (pair defOp) rest /\
      run (weight ("-" :: rest)) ("-" :: rest) defOp r m =
        Ret (Some allgood, [], m')) /\
  (forall taken v0 post m1 m2,
      fed defOp taken m m1 ->
      setMe defOp v0 m1 = (false, m2) ->
      let e := mkErrorState invalid None (Some v0) in
      proc ("-" :: taken ++ v0 :: post) defOp m = Ret (e, post, m2) /\
      calls m2 = calls m ++ map (pair defOp) (taken ++ [v0]) /\
      run (weight ("-" :: taken ++ v0 :: post)) ("-" :: taken ++ v0 :: post)
          defOp r m = Ret (Some e, post, m2)) /\
  (forall rest,
      (exists m', fed defOp rest m m') \/
      (exists taken v0 post m1 m2,
          rest = taken ++ v0 :: post /\ fed defOp taken m m1 /\
          setMe defOp v0 m1 = (false, m2))).
Proof.
  intros Hv. split; [|split].
  - intros rest m' Hfed.
    assert (Hp : proc ("-" :: rest) defOp m = Ret (allgood, [], m')).
    { rewrite proc_single_dash, (take_all_fed _ _ _ _ Hfed). reflexivity. }
    split; [exact Hp|]. split.
    + apply (fed_calls _ _ _ _ Hfed Hv).
    + rewrite (run_step _ _ _ r _ _ _ Hp eq_refl). reflexivity.
  - intros taken v0 post m1 m2 Hfed Hfail e.
    assert (Hp : proc ("-" :: taken ++ v0 :: post) defOp m = Ret (e, post, m2)).
    { rewrite proc_single_dash, (take_all_fails _ _ _ _ _ _ _ Hfed Hfail).
      reflexivity. }
    split; [exact Hp|]. split.
    + destruct (fed_calls _ _ _ _ Hfed Hv) as [Hv1 Hc].
      assert (Hm2 : m2 = snd (setMe defOp v0 m1)) by (rewrite Hfail; reflexivity).
      rewrite Hm2, setMe_calls, Hc, map_app by exact Hv1.
      rewrite <- app_assoc. reflexivity.
    + apply run_stop; [exact Hp|discriminate].
  - intros rest. apply fed_or_fails.
Qed.

(** *** Defaults *)

Lemma setDefaults_step_calls (m : machine) (i : nat) :
  calls (setDefaults_step m i) = calls m ++ default_call m i.
Proof.
  unfold setDefaults_step, default_call.
  destruct (nth_error (options m) i) as [a|] eqn:Hi; [|now rewrite app_nil_r].
  destruct (seen a); [now rewrite app_nil_r|].
  destruct (d (strings a)) as [dflt|]; [|now rewrite app_nil_r].
  apply setMe_calls. simpl. apply nth_error_Some. congruence.
Qed.

Lemma setDefaults_step_nth (m : machine) (i j : nat) :
  i <> j ->
  nth_error (options (setDefaults_step m i)) j = nth_error (options m) j.
Proof.
  intros Hij. unfold setDefaults_step.
  destruct (nth_error (options m) i) as [a|] eqn:Hi; [|reflexivity].
  destruct (seen a); [reflexivity|].
  destruct (d (strings a)) as [dflt|]; [|reflexivity].
  rewrite (setMe_registered _ _ _ _ Hi). simpl.
  apply nth_error_replace_other. exact Hij.
Qed.

Lemma setDefaults_step_other (m : machine) (i j : nat) :
  i <> j -> default_call (setDefaults_step m i) j = default_call m j.
Proof.
  intros Hij. unfold default_call.
  rewrite (setDefaults_step_nth _ _ _ Hij). reflexivity.
Qed.

Lemma flat_map_agree {A B : Type} (f g : A -> list B) (xs : list A) :
  (forall x, In x xs -> f x = g x) -> flat_map f xs = flat_map g xs.
Proof.
  induction xs as [|x xs IH]; intros Hfg; simpl.
  - reflexivity.
  - rewrite (Hfg x) by (left; reflexivity).
    rewrite IH; [reflexivity|]. intros y Hy. apply Hfg. right. exact Hy.
Qed.

Lemma setDefaults_fold_calls (idx : list nat) (m : machine) :
  NoDup idx ->
  calls (fold_left setDefaults_step idx m) =
  calls m ++ flat_map (default_call m) idx.
Proof.
  intros Hnd. revert m.
  induction Hnd as [|i idx Hi _ IH]; intros m; simpl.
  - now rewrite app_nil_r.
  - rewrite IH, setDefaults_step_calls, <- app_assoc. do 2 f_equal.
    apply flat_map_agree. intros j Hj.
    apply setDefaults_step_other. intros ->. contradiction.
Qed.

Lemma default_call_In (m : machine) (j : nat) (t : target) (str : string) :
  In (t, str) (default_call m j) <->
  t = registered j /\
  exists a, nth_error (options m) j = Some a /\ seen a = false /\
            d (strings a) = Some str.
Proof.
  unfold default_call.
  destruct (nth_error (options m) j) as [a|] eqn:Hj.
  - destruct (seen a) eqn:Hs.
    + split; [intros []|]. intros (_ & a' & Ha' & Hs' & _). congruence.
    + destruct (d (strings a)) as [dflt|] eqn:Hd.
      * simpl. split.
        -- intros [H|[]]. inversion H; subst. split; [reflexivity|].
           exists a. auto.
        -- intros (-> & a' & Ha' & _ & Hd'). left.
           inversion Ha'; subst. congruence.
      * split; [intros []|]. intros (_ & a' & Ha' & _ & Hd'). congruence.
  - split; [intros []|]. intros (_ & a' & Ha' & _). discriminate.
Qed.

Lemma default_calls_count (m : machine) (idx : list nat) (i : nat) (str : string) :
  (count_occ call_eq_dec (flat_map (default_call m) idx) (registered i, str)
   <= count_occ Nat.eq_dec idx i)%nat.
Proof.
  induction idx as [|j idx IH]; simpl; [lia|].
  rewrite count_occ_app.
  destruct (Nat.eq_dec j i) as [->|Hji].
  - assert (count_occ call_eq_dec (default_call m i) (registered i, str) <= 1)%nat.
    { unfold default_call.
      destruct (nth_error (options m) i) as [a|]; cbn [count_occ]; [|lia].
      destruct (seen a); cbn [count_occ]; [lia|].
      destruct (d (strings a)) as [dflt|]; cbn [count_occ]; [|lia].
      destruct (call_eq_dec (registered i, dflt) (registered i, str)); lia. }
    lia.
  - assert (count_occ call_eq_dec (default_call m j) (registered i, str) = 0)%nat.
    { apply count_occ_not_In. intros Hin.
      apply default_call_In in Hin. destruct Hin as [Heq _].
      inversion Heq. congruence. }
    lia.
Qed.

Lemma run_ok_empties (f : nat) (q q' : queue) (defOp : target)
  (r r' : option errorState) (m m' : machine) :
  run f q defOp r m = Ret (r', q', m') ->
  q' = [] \/ exists e, r' = Some e /\ state e <> ok.
Proof.
  revert q r m. induction f as [|f IH]; intros q r m Hrun.
  - destruct q; simpl in Hrun; [|discriminate].
    inversion Hrun; subst. left. reflexivity.
  - destruct q as [|tok q]; simpl in Hrun.
    + inversion Hrun; subst. left. reflexivity.
    + destruct (proc (tok :: q) defOp m) as [[[e q1] m1]| |]; simpl in Hrun;
        try discriminate.
      destruct (state e) eqn:He.
      * eapply IH. exact Hrun.
      * inversion Hrun; subst. right. exists e. split; congruence.
      * inversion Hrun; subst. right. exists e. split; congruence.
Qed.

(** *** Defaults that do not convert *)

Lemma fromString_failure (T : ty) (s0 : string) (old : value) :
  fst (fromString T s0 old) = false ->
  snd (fromString T s0 old) = after_failure T old.
Proof.
  destruct T as [| | |T']; simpl.
  - unfold fromString_bool. cbv zeta.
    set (w := transform tolower s0).
    destruct (String.eqb w "1" || String.eqb w "true" ||
              String.eqb w "yes" || String.eqb w "enable")%bool;
      simpl; [discriminate|reflexivity].
  - unfold fromString_int, strtol0.
    destruct (strtol_sign (skip_space s0)) as [neg body].
    destruct (strtol_base body) as [base digits].
    destruct (scan_digits base digits 0 0) as [magnitude [|taken]]; simpl;
      [reflexivity|discriminate].
  - discriminate.
  - destruct (fromString T' s0 (fresh T')) as [[|] x]; simpl;
      [discriminate|reflexivity].
Qed.

Section OneDescriptor.

Variable i : nat.
Variable v : var.

Local Abbreviation alone := (others_leave i v).

Lemma setDefaults_step_frame (m : machine) (j : nat) :
  j <> i -> alone m ->
  vars (setDefaults_step m j) v = vars m v /\
  nth_error (options (setDefaults_step m j)) i = nth_error (options m) i /\
  alone (setDefaults_step m j).
Proof.
  intros Hji Halone. unfold setDefaults_step.
  destruct (nth_error (options m) j) as [b|] eqn:Hj; [|auto].
  destruct (seen b); [auto|].
  destruct (d (strings b)) as [dflt|]; [|auto].
  rewrite (setMe_registered _ _ _ _ Hj). simpl.
  split; [apply (Halone j b Hji Hj)|].
  split; [apply nth_error_replace_other; exact Hji|].
  intros k b' Hki Hk. simpl in Hk.
  destruct (Nat.eq_dec j k) as [->|Hjk].
  - rewrite nth_error_replace_same in Hk
      by (apply nth_error_Some; congruence).
    inversion Hk; subst. exact (Halone k b Hki Hj).
  - rewrite nth_error_replace_other in Hk by exact Hjk.
    exact (Halone k b' Hki Hk).
Qed.

Lemma setDefaults_fold_frame (idx : list nat) (m : machine) :
  ~ In i idx -> alone m ->
  vars (fold_left setDefaults_step idx m) v = vars m v /\
  nth_error (options (fold_left setDefaults_step idx m)) i =
    nth_error (options m) i /\
  alone (fold_left setDefaults_step idx m).
Proof.
  revert m. induction idx as [|j idx IH]; intros m Hi Halone; simpl.
  - auto.
  - assert (Hji : j <> i) by (intros ->; apply Hi; left; reflexivity).
    destruct (setDefaults_step_frame m j Hji Halone) as (Hv & Hn & Ha).
    destruct (IH (setDefaults_step m j)) as (Hv' & Hn' & Ha'); auto.
    { intros Hin. apply Hi. right. exact Hin. }
    split; [congruence|]. split; [congruence|exact Ha'].
Qed.

Lemma setDefaults_at (m : machine) (a : argObjBase) (T : ty) (dflt : string) :
  nth_error (options m) i = Some a ->
  isArgObj T v a -> seen a = false -> d (strings a) = Some dflt ->
  alone m ->
  vars (setDefaults m) v = snd (fromString T dflt (vars m v)) /\
  nth_error (options (setDefaults m)) i = Some (mark_seen a).
Proof.
  intros Hi [_ Hconv] Hseen Hd Halone. unfold setDefaults.
  assert (Hlt : (i < List.length (options m))%nat)
    by (apply nth_error_Some; congruence).
  replace (List.length (options m))
    with (i + S (List.length (options m) - S i))%nat by lia.
  rewrite seq_app, fold_left_app. simpl.
  destruct (setDefaults_fold_frame (seq 0 i) m) as (Hv1 & Hn1 & Ha1); auto.
  { rewrite in_seq. lia. }
  set (m1 := fold_left setDefaults_step (seq 0 i) m) in *.
  assert (Hstep : vars (setDefaults_step m1 i) v =
                    snd (fromString T dflt (vars m v)) /\
                  nth_error (options (setDefaults_step m1 i)) i =
                    Some (mark_seen a) /\
                  alone (setDefaults_step m1 i)).
  { unfold setDefaults_step. rewrite Hn1, Hi, Hseen, Hd.
    rewrite (setMe_registered i a) by congruence.
    simpl. rewrite Hconv. unfold assign. rewrite Hv1.
    destruct (fromString T dflt (vars m v)) as [r x]. simpl.
    split; [unfold upd; rewrite String.eqb_refl; reflexivity|].
    split.
    - apply nth_error_replace_same. apply nth_error_Some. congruence.
    - intros k b Hki Hk. simpl in Hk.
      rewrite nth_error_replace_other in Hk by congruence.
      exact (Ha1 k b Hki Hk). }
  destruct Hstep as (Hv2 & Hn2 & Ha2).
  destruct (setDefaults_fold_frame
              (seq (S i) (List.length (options m) - S i))
              (setDefaults_step m1 i)) as (Hv3 & Hn3 & _); auto.
  { rewrite in_seq. lia. }
  split; congruence.
Qed.

End OneDescriptor.

(** C4, as the code has it. When the loop of [populate] ended [ok] and the
    default string of an unseen [argObj<T>] does not convert, [populate]
    still returns the [ok] result of the loop, the descriptor is marked as
    seen, and the bound variable holds what the failed converter left in it:
    0 for an [int], false for a [bool], the unchanged content for a
    container.  (No other descriptor is bound to that variable.) *)
Theorem failed_default_is_swallowed
  (c : Z) (argv : list string) (m : machine) (args q : queue)
  (e : errorState) (m1 : machine)
  (i : nat) (a : argObjBase) (T : ty) (v : var) (dflt : string) :
  push_args (Z.to_nat c) argv [] = Ret args ->
  run (weight args) args (findDefault m) None m = Ret (Some e, q, m1) ->
  state e = ok ->
  nth_error (options m1) i = Some a ->
  isArgObj T v a -> seen a = false -> d (strings a) = Some dflt ->
  fst (fromString T dflt (vars m1 v)) = false ->
  others_leave i v m1 ->
  exists m',
    populate c argv m = Ret (e, m') /\
    isOk e = true /\
    vars m' v = after_failure T (vars m1 v) /\
    nth_error (options m') i = Some (mark_seen a).
Proof.
  intros Hargs Hrun He Hi Ha Hseen Hd Hfail Halone.
  exists (setDefaults m1).
  split.
  { unfold arguments.populate. rewrite Hargs. cbn [bind].
    rewrite Hrun. cbn [bind]. rewrite He. reflexivity. }
  split; [unfold isOk; rewrite He; reflexivity|].
  destruct (setDefaults_at i v m1 a T dflt Hi Ha Hseen Hd Halone) as [Hv Hn].
  split; [|exact Hn].
  rewrite Hv. apply fromString_failure. exact Hfail.
Qed.

(** *** The matcher on a spelling followed by more text *)

Lemma append_nil_r (str : string) : (str ++ "")%string = str.
Proof.
  induction str as [|c str IH]; simpl; [reflexivity|now rewrite IH].
Qed.

Lemma isMe_loop_prefix (y rest : string) (n : Z) :
  n + Z.of_nat (String.length y) <= max_string_length ->
  isMe_loop max_string_length (y ++ rest) y n = Some (rest, "").
Proof.
  revert n. induction y as [|c y IH]; intros n Hn; simpl.
  - destruct rest; reflexivity.
  - simpl in Hn.
    replace (n <? max_string_length) with true by (symmetry; apply Z.ltb_lt; lia).
    rewrite Ascii.eqb_refl. apply IH. lia.
Qed.

Lemma isMe_spelling (a : argObjBase) (y rest : string) (sl : bool) :
  (if sl then s (strings a) else l (strings a)) = Some y ->
  Z.of_nat (String.length y) <= max_string_length ->
  isMe a (Some (y ++ rest)%string) sl =
  match rest with
  | EmptyString => Some None
  | String c rest' =>
      if sl then Some (Some (if isDelim c then rest' else rest))
      else if isDelim c then Some (Some rest') else None
  end.
Proof.
  intros Hy Hlen. unfold arguments.isMe. rewrite Hy.
  rewrite isMe_loop_prefix by lia. reflexivity.
Qed.

Lemma findArg_op_long (m : machine) (z : string) :
  findArg_op m (String "-" z) = findArg m z false.
Proof. reflexivity. Qed.

Lemma findArg_op_short (m : machine) (c0 : ascii) (z : string) :
  c0 <> "-"%char ->
  findArg_op m (String c0 z) = findArg m (String c0 z) true.
Proof.
  intros Hc. destruct c0 as [[] [] [] [] [] [] [] []];
    try reflexivity; congruence.
Qed.

Lemma findArg_first (m : machine) (pre post : list argObjBase)
  (a : argObjBase) (z : string) (sl : bool) (dl : option string) :
  options m = pre ++ a :: post ->
  passes_over pre z sl ->
  isMe a (Some z) sl = Some dl ->
  findArg m z sl = Some (List.length pre, dl).
Proof.
  intros Hm Hpre Ha. unfold arguments.findArg. rewrite Hm.
  apply (findArg_from_first pre post a z sl dl 0 Hpre Ha).
Qed.

(** *** [populate] from its first step *)

Lemma firstn_snoc {A : Type} (xs : list A) (n : nat) (x : A) :
  nth_error xs n = Some x -> firstn (S n) xs = firstn n xs ++ [x].
Proof.
  revert n. induction xs as [|y xs IH]; intros [|n] Hn; simpl in *;
    try discriminate.
  - inversion Hn; reflexivity.
  - f_equal. apply IH. exact Hn.
Qed.

Lemma push_args_firstn (prog : string) (toks : list string) (n : nat)
  (acc : queue) :
  (n <= List.length toks)%nat ->
  push_args (S n) (prog :: toks) acc = Ret (firstn n toks ++ acc).
Proof.
  revert acc. induction n as [|n IH]; intros acc Hn.
  - reflexivity.
  - destruct (nth_error toks n) as [x|] eqn:Hx;
      [|apply nth_error_None in Hx; lia].
    change (push_args (S (S n)) (prog :: toks) acc)
      with (match nth_error (prog :: toks) (S n) with
            | Some a => push_args (S n) (prog :: toks) (a :: acc)
            | None => Undefined out_of_bounds
            end).
    simpl nth_error. rewrite Hx, IH by lia.
    rewrite (firstn_snoc _ _ _ Hx), <- app_assoc. reflexivity.
Qed.

Lemma push_args_all (prog : string) (toks : list string) :
  push_args (Z.to_nat (Z.of_nat (S (List.length toks)))) (prog :: toks) [] =
  Ret toks.
Proof.
  rewrite Nat2Z.id, push_args_firstn by lia.
  rewrite firstn_all, app_nil_r. reflexivity.
Qed.

(** The part of [populate] after the loop. *)
Local Abbreviation after_loop x :=
  (bind x (fun '(r, _, m') =>
     match r with
     | None => Undefined indeterminate_read
     | Some r =>
         match state r with
         | ok => Ret (r, setDefaults m')
         | _ => Ret (r, m')
         end
     end)).

Lemma populate_first_step (prog : string) (toks q1 : queue) (m m1 : machine)
  (e : errorState) :
  proc toks (findDefault m) m = Ret (e, q1, m1) ->
  populate (Z.of_nat (S (List.length toks))) (prog :: toks) m =
  match state e with
  | ok => after_loop (run (weight q1) q1 (findDefault m) (Some e) m1)
  | _ => Ret (e, m1)
  end.
Proof.
  intros Hp. unfold arguments.populate. rewrite push_args_all. cbn [bind].
  destruct (state e) eqn:He.
  - rewrite (run_step _ _ _ None _ _ _ Hp He). reflexivity.
  - rewrite (run_stop _ _ _ None _ _ _ Hp) by congruence.
    cbn [bind]. rewrite He. reflexivity.
  - rewrite (run_stop _ _ _ None _ _ _ Hp) by congruence.
    cbn [bind]. rewrite He. reflexivity.
Qed.

(** *** The five ways to give a value *)

Lemma proc_found (c1 : ascii) (op2 : string) (q q' : queue) (defOp : target)
  (m : machine) (i : nat) (delm : option string) (a : argObjBase)
  (val0 : string) :
  findArg_op m (String c1 op2) = Some (i, delm) ->
  nth_error (options m) i = Some a ->
  numArgs a <> 0 ->
  match delm with Some dl => dl :: q | None => q end = val0 :: q' ->
  proc (String "-" (String c1 op2) :: q) defOp m =
  Ret (if fst (setMe (registered i) val0 m) then allgood
       else mkErrorState invalid (Some (String "-" (String c1 op2))) (Some val0),
       q', snd (setMe (registered i) val0 m)).
Proof.
  intros Hfind Hi Hn Hq.
  rewrite proc_option_token, Hfind. cbv zeta. rewrite Hi, Hq.
  replace (numArgs a =? 0) with false by (symmetry; apply Z.eqb_neq; exact Hn).
  destruct (setMe (registered i) val0 m) as [r m']. reflexivity.
Qed.

Lemma nth_error_middle {A : Type} (pre post : list A) (x : A) :
  nth_error (pre ++ x :: post) (List.length pre) = Some x.
Proof.
  rewrite nth_error_app2 by lia. rewrite Nat.sub_diag. reflexivity.
Qed.

(** C2, as the code has it. Take a descriptor with a short and a long
    spelling, neither longer than [max_string_length], the short one not
    empty and not starting with a dash, whose arity is not 0, in a registry
    where [=] is a delimiter and where no descriptor visited before it
    answers to the texts below.  Then [--long=value], [--long value],
    [-short=value] and [-short value] yield the same kind of result and the
    same machine, for every value and whatever tokens follow.  [-shortvalue]
    yields them too when the value is not empty and does not start with a
    delimiter. *)
Theorem spellings_of_a_value_agree
  (m : machine) (pre post : list argObjBase) (a : argObjBase)
  (sh lg value prog : string) (rest : queue) :
  options m = pre ++ a :: post ->
  s (strings a) = Some sh ->
  l (strings a) = Some lg ->
  numArgs a <> 0 ->
  sh <> "" ->
  (forall z, sh <> String "-" z) ->
  Z.of_nat (String.length sh) <= max_string_length ->
  Z.of_nat (String.length lg) <= max_string_length ->
  isDelim "=" = true ->
  passes_over pre (lg ++ "=" ++ value)%string false ->
  passes_over pre lg false ->
  passes_over pre (sh ++ "=" ++ value)%string true ->
  passes_over pre sh true ->
  let parse toks :=
    observe (populate (Z.of_nat (S (List.length toks))) (prog :: toks) m) in
  forall f : form,
    (f = short_joined ->
     value <> "" /\
     (forall c z, value = String c z -> isDelim c = false) /\
     passes_over pre (sh ++ value)%string true) ->
    parse (tokens_of f sh lg value ++ rest) =
    parse (tokens_of long_equals sh lg value ++ rest).
Proof.
  intros Hm Hs Hl Hn Hsh Hdash Hlens Hlenl Heq Pleq Pl Pseq Ps parse.
  set (i := List.length pre).
  assert (Hi : nth_error (options m) i = Some a)
    by (rewrite Hm; apply nth_error_middle).
  destruct sh as [|c0 sh']; [congruence|].
  assert (Hc0 : c0 <> "-"%char) by (intros ->; exact (Hdash sh' eq_refl)).
  set (common :=
         if fst (setMe (registered i) value m)
         then observe (after_loop (run (weight rest) rest (findDefault m)
                                       (Some allgood)
                                       (snd (setMe (registered i) value m))))
         else Ret (invalid, snd (setMe (registered i) value m))).
  assert (Hall : forall toks tok,
             proc toks (findDefault m) m =
               Ret (if fst (setMe (registered i) value m) then allgood
                    else mkErrorState invalid (Some tok) (Some value),
                    rest, snd (setMe (registered i) value m)) ->
             parse toks = common).
  { intros toks tok Hp. unfold parse, common.
    rewrite (populate_first_step _ _ _ _ _ _ Hp).
    destruct (fst (setMe (registered i) value m)); reflexivity. }
  assert (Hle : parse (tokens_of long_equals (String c0 sh') lg value ++ rest)
                = common).
  { eapply Hall. simpl. eapply proc_found with (delm := (Some value));
      [|exact Hi|exact Hn|reflexivity].
    rewrite findArg_op_long.
    apply (findArg_first m pre post a); [exact Hm|exact Pleq|].
    rewrite (isMe_spelling a lg) by assumption.
    simpl. rewrite Heq. reflexivity. }
  intros f Hf. rewrite Hle. clear Hle.
  destruct f.
  - eapply Hall. simpl. eapply proc_found with (delm := (Some value));
      [|exact Hi|exact Hn|reflexivity].
    rewrite findArg_op_long.
    apply (findArg_first m pre post a); [exact Hm|exact Pleq|].
    rewrite (isMe_spelling a lg) by assumption.
    simpl. rewrite Heq. reflexivity.
  - eapply Hall. simpl.
    destruct lg as [|cl lg'].
    + eapply proc_found with (delm := None);
      [|exact Hi|exact Hn|reflexivity].
      rewrite findArg_op_long.
      apply (findArg_first m pre post a); [exact Hm|exact Pl|].
      rewrite <- (append_nil_r "") at 1.
      rewrite (isMe_spelling a "") by assumption. reflexivity.
    + eapply proc_found with (delm := None);
      [|exact Hi|exact Hn|reflexivity].
      rewrite findArg_op_long.
      apply (findArg_first m pre post a); [exact Hm|exact Pl|].
      rewrite <- (append_nil_r (String cl lg')) at 1.
      rewrite (isMe_spelling a (String cl lg')) by assumption. reflexivity.
  - destruct (Hf eq_refl) as (Hv & Hnd & Pj).
    destruct value as [|cv value']; [congruence|].
    eapply Hall. simpl. eapply proc_found with (delm := (Some (String cv value')));
      [|exact Hi|exact Hn|reflexivity].
    rewrite findArg_op_short by exact Hc0.
    apply (findArg_first m pre post a); [exact Hm|exact Pj|].
    change (String c0 (sh' ++ String cv value'))%string
      with (String c0 sh' ++ String cv value')%string.
    rewrite (isMe_spelling a (String c0 sh')) by assumption.
    rewrite (Hnd cv value' eq_refl). reflexivity.
  - eapply Hall. simpl. eapply proc_found with (delm := (Some value));
      [|exact Hi|exact Hn|reflexivity].
    rewrite findArg_op_short by exact Hc0.
    apply (findArg_first m pre post a); [exact Hm|exact Pseq|].
    change (String c0 (sh' ++ String "=" value))%string
      with (String c0 sh' ++ String "=" value)%string.
    rewrite (isMe_spelling a (String c0 sh')) by assumption.
    rewrite Heq. reflexivity.
  - eapply Hall. simpl. eapply proc_found with (delm := None);
      [|exact Hi|exact Hn|reflexivity].
    rewrite findArg_op_short by exact Hc0.
    apply (findArg_first m pre post a); [exact Hm|exact Ps|].
    rewrite <- (append_nil_r (String c0 sh')) at 1.
    rewrite (isMe_spelling a (String c0 sh')) by assumption. reflexivity.
Qed.

End Properties.

(** ** The documented command line *)

(** C1. With the four registrations of the documentation, the command line
    [--outfile foo -c 4 -w 4 -w5 -w=4 -w:1 --w 6 bar1 bar2 bar3] parses to
    [ok] and leaves outfile = "foo", count = 4, ws = 4 5 4 1 6 and
    infile = "bar1" "bar2" "bar3". *)
Theorem documented_command_line (init : store) :
  exists m',
    populate 64 [] 15 documented_argv (documented init) = Ret (allgood, m') /\
    vars m' "outfile" = VString "foo" /\
    vars m' "count" = VInt 4 /\
    vars m' "ws" = VList [VInt 4; VInt 5; VInt 4; VInt 1; VInt 6] /\
    vars m' "infile" = VList [VString "bar1"; VString "bar2"; VString "bar3"].
Proof.
  assert (H : omap (fun '(e, m) => (e, (vars m "outfile", vars m "count",
                                        vars m "ws", vars m "infile")))
                   (populate 64 [] 15 documented_argv (documented init)) =
              Ret (allgood, (VString "foo", VInt 4,
                   VList [VInt 4; VInt 5; VInt 4; VInt 1; VInt 6],
                   VList [VString "bar1"; VString "bar2"; VString "bar3"]))).
  { vm_compute. reflexivity. }
  destruct (populate 64 [] 15 documented_argv (documented init))
    as [[e m']| |]; try discriminate.
  simpl in H. inversion H; subst. exists m'. repeat split; assumption.
Qed.

(** ** Where the code departs from the specification *)

(** C3, as stated, fails: a spelling the boolean converter rejects still
    overwrites a variable that held true. *)
Lemma fromString_bool_failure_overwrites :
  fst (assign TBool "help" "maybe" (upd "help" (VBool true) sevens)) = false /\
  upd "help" (VBool true) sevens "help" = VBool true /\
  snd (assign TBool "help" "maybe" (upd "help" (VBool true) sevens)) "help"
    = VBool false.
Proof.
  repeat split; vm_compute; reflexivity.
Qed.

(** C4, as stated, fails: the default "abc" of the [int] option [level] does
    not convert; the loop ends [ok] with level = 7, [populate] returns [ok],
    and level is 0 afterwards. *)
Lemma failed_default_overwrites_int :
  omap (fun '(r, q, m1) => (r, q, vars m1 "level"))
       (run 64 [] (weight ["-v"]) ["-v"] (findDefault 64 [] malformed) None
            malformed)
    = Ret (Some allgood, [], VInt 7) /\
  fst (fromString TInt "abc" (VInt 7)) = false /\
  omap (fun '(e, m') => (e, vars m' "level"))
       (populate 64 [] 2 ["./test"; "-v"] malformed)
    = Ret (allgood, VInt 0).
Proof.
  repeat split; vm_compute; reflexivity.
Qed.

(** C2, as stated, fails: for the value "=5" of the string option [outfile],
    [-shortvalue] is the token [-o=5], which stores "5", while
    [--long=value] stores "=5". *)
Lemma joined_value_with_delimiter_differs :
  tokens_of short_joined "o" "outfile" "=5" = ["-o=5"] /\
  tokens_of long_equals "o" "outfile" "=5" = ["--outfile==5"] /\
  final_var (observe (populate 64 [] 2 ["./test"; "-o=5"] (documented sevens)))
            "outfile" = Some (VString "5") /\
  final_var (observe (populate 64 [] 2 ["./test"; "--outfile==5"]
                               (documented sevens)))
            "outfile" = Some (VString "=5") /\
  observe (populate 64 [] 2 ["./test"; "-o=5"] (documented sevens)) <>
  observe (populate 64 [] 2 ["./test"; "--outfile==5"] (documented sevens)).
Proof.
  assert (H1 : final_var
            (observe (populate 64 [] 2 ["./test"; "-o=5"] (documented sevens)))
            "outfile" = Some (VString "5")) by (vm_compute; reflexivity).
  assert (H2 : final_var
            (observe (populate 64 [] 2 ["./test"; "--outfile==5"]
                               (documented sevens)))
            "outfile" = Some (VString "=5")) by (vm_compute; reflexivity).
  split; [reflexivity|]. split; [reflexivity|].
  split; [exact H1|]. split; [exact H2|].
  intros Heq. rewrite Heq in H1. rewrite H1 in H2. discriminate.
Qed.

(** C5, as stated, fails: [--bogus] answers to no descriptor, yet after [-o]
    it is the value of the option; the parse is [ok] and outfile is
    "--bogus". *)
Lemma unmatched_token_taken_as_value :
  findArg_op 64 [] (documented sevens) "-bogus" = None /\
  omap (fun '(e, m') => (e, vars m' "outfile"))
       (populate 64 [] 3 ["./test"; "-o"; "--bogus"] (documented sevens))
    = Ret (allgood, VString "--bogus").
Proof.
  split; vm_compute; reflexivity.
Qed.

(** ** The theorems at concrete inputs *)

Lemma spellings_of_a_value_agree_witness :
  observe (populate 64 [] 2 ["./test"; "-ofoo"] (documented sevens)) =
  observe (populate 64 [] 2 ["./test"; "--outfile=foo"] (documented sevens)).
Proof.
  refine (spellings_of_a_value_agree 64 [] (documented sevens)
            [descriptor reg_infile; descriptor reg_ws; descriptor reg_count] []
            (descriptor reg_outfile) "o" "outfile" "foo" "./test" []
            eq_refl eq_refl eq_refl _ _ _ _ _ eq_refl _ _ _ _ short_joined _);
    try discriminate;
    try (unfold passes_over;
         repeat (apply Forall_cons; [reflexivity|]); apply Forall_nil).
  intros _. split; [discriminate|]. split.
  - intros c z Hv. inversion Hv; subst. reflexivity.
  - unfold passes_over.
    repeat (apply Forall_cons; [reflexivity|]); apply Forall_nil.
Defined.

Lemma failed_default_is_swallowed_witness :
  exists m',
    populate 64 [] 2 ["./test"; "-v"] malformed = Ret (allgood, m') /\
    isOk allgood = true /\
    vars m' "level" = VInt 0 /\
    nth_error (options m') 1 = Some (mark_seen (descriptor reg_level)).
Proof.
  refine (failed_default_is_swallowed 64 [] 2 ["./test"; "-v"] malformed
            ["-v"] [] allgood (snd (setMe (registered 0) "true" malformed))
            1%nat (descriptor reg_level) TInt "level" "abc"
            eq_refl eq_refl eq_refl eq_refl (conj eq_refl eq_refl)
            eq_refl eq_refl eq_refl _).
  intros [|[|j]] b Hj Hb str st; try congruence.
  - inversion Hb; subst. simpl. unfold assign.
    destruct (fromString TBool str (st "verbose")). reflexivity.
  - destruct j; discriminate.
Defined.

Lemma unknown_option_halts_witness :
  let m := documented sevens in
  let m1 := snd (setMe (registered 2) "4" m) in
  let e := mkErrorState unknown (Some "--bogus") None in
  vars m1 "count" = VInt 4 /\
  run 64 [] (weight ["-c"; "4"; "--bogus"; "-o"; "x"])
      ["-c"; "4"; "--bogus"; "-o"; "x"] (findDefault 64 [] m) None m =
    Ret (Some e, ["-o"; "x"], m1) /\
  populate 64 [] 6 ["./test"; "-c"; "4"; "--bogus"; "-o"; "x"] m = Ret (e, m1).
Proof.
  intros m m1 e. split; [reflexivity|].
  apply (unknown_option_halts 64 [] 6
           ["./test"; "-c"; "4"; "--bogus"; "-o"; "x"] m
           ["-c"; "4"; "--bogus"; "-o"; "x"] "-bogus" ["-o"; "x"] m1).
  - reflexivity.
  - apply (reaches_next 64 [] _ ["-c"; "4"; "--bogus"; "-o"; "x"]
             ["--bogus"; "-o"; "x"] m m1 allgood);
      [reflexivity|reflexivity|apply reaches_here].
  - discriminate.
  - reflexivity.
Defined.

Lemma single_dash_feeds_the_rest_witness :
  let m := documented sevens in
  let m1 := snd (setMe (registered 0) "--outfile" m) in
  let m2 := snd (setMe (registered 0) "-c" m1) in
  proc 64 [] ["-"; "--outfile"; "-c"] (registered 0) m = Ret (allgood, [], m2) /\
  calls m2 = calls m ++ [(registered 0, "--outfile"); (registered 0, "-c")] /\
  vars m2 "infile" = VList [VString "--outfile"; VString "-c"].
Proof.
  intros m m1 m2.
  assert (Hvalid : valid_target (registered 0) m) by (simpl; lia).
  destruct (single_dash_feeds_the_rest 64 [] (registered 0) m None Hvalid)
    as [Hall _].
  assert (Hfed : fed (registered 0) ["--outfile"; "-c"] m m2).
  { apply (fed_cons _ _ _ m m1 m2); [reflexivity|].
    apply (fed_cons _ _ _ m1 m2 m2); [reflexivity|]. apply fed_nil. }
  destruct (Hall _ _ Hfed) as (Hp & Hc & _).
  split; [exact Hp|]. split; [exact Hc|]. reflexivity.
Defined.

Lemma registry_reversed_first_match_wins_witness :
  let m := register_all [reg_ws; reg_width; reg_infile]
                        (mkMachine [] sevens []) in
  isMe 64 [] (descriptor reg_ws) (Some "w5") true = Some (Some "5") /\
  options m = [descriptor reg_infile; descriptor reg_width; descriptor reg_ws] /\
  findArg 64 [] m "w5" true = Some (1%nat, Some "5") /\
  nth_error (options m) 1 = Some (descriptor reg_width).
Proof.
  intros m. split; [reflexivity|].
  apply (registry_reversed_first_match_wins 64 [] [reg_ws] [reg_infile]
           reg_width (mkMachine [] sevens []) "w5" true (Some "5")).
  - reflexivity.
  - reflexivity.
  - apply Forall_cons; [reflexivity|apply Forall_nil].
Defined.

Lemma boolean_flag_sets_true_consumes_nothing_witness :
  exists m',
    proc 64 [] ["-v"; "4"] no malformed = Ret (allgood, ["4"], m') /\
    vars m' "verbose" = VBool true /\
    calls m' = calls malformed ++ [(registered 0, "true")] /\
    nth_error (options m') 0 = Some (mark_seen (descriptor reg_verbose)).
Proof.
  apply (boolean_flag_sets_true_consumes_nothing 64 [] malformed no "v" ["4"]
           0%nat None (descriptor reg_verbose) "verbose").
  - discriminate.
  - reflexivity.
  - reflexivity.
  - split; reflexivity.
Defined.

Lemma populate_without_tokens_witness :
  1 <= 1 /\
  populate 64 [] 1 ["./test"] (documented sevens) = Undefined indeterminate_read.
Proof.
  split; [lia|].
  apply populate_without_tokens_reads_unset_result. lia.
Defined.

(** ** More of the matcher, the loop and the output *)

Section Coverage.

Variable max_string_length : Z.
Variable delims : list ascii.

Local Abbreviation isMe := (isMe max_string_length delims).
Local Abbreviation isDelim := (isDelim delims).
Local Abbreviation findArg := (findArg max_string_length delims).
Local Abbreviation findArg_op := (findArg_op max_string_length delims).
Local Abbreviation findDefault := (findDefault max_string_length delims).
Local Abbreviation proc := (proc max_string_length delims).
Local Abbreviation run := (run max_string_length delims).
Local Abbreviation populate := (populate max_string_length delims).
Local Abbreviation reaches := (reaches max_string_length delims).
Local Abbreviation passes_over := (passes_over max_string_length delims).
Local Abbreviation populateWithHelp :=
  (populateWithHelp max_string_length delims).

(** *** The matcher *)

Lemma isMe_loop_split (x y x' y' : string) (n : Z) :
  isMe_loop max_string_length x y n = Some (x', y') ->
  exists p,
    x = (p ++ x')%string /\ y = (p ++ y')%string /\
    (p = "" \/ n + Z.of_nat (String.length p) <= max_string_length).
Proof.
  revert y n. induction x as [|cx x IH]; intros y n Hl; simpl in Hl.
  - inversion Hl; subst. exists "". auto.
  - destruct y as [|cy y]; [inversion Hl; subst; exists ""; auto|].
    destruct (n <? max_string_length) eqn:Hn;
      [|inversion Hl; subst; exists ""; auto].
    destruct (Ascii.eqb cx cy) eqn:Hc; [|discriminate].
    apply Ascii.eqb_eq in Hc. subst cy. apply Z.ltb_lt in Hn.
    destruct (IH _ _ Hl) as (p & Hx & Hy & Hp).
    exists (String cx p). simpl. rewrite <- Hx, <- Hy.
    split; [reflexivity|]. split; [reflexivity|]. right.
    destruct Hp as [->|Hp]; simpl; lia.
Qed.

Lemma isMe_inv (a : argObjBase) (y z : string) (sl : bool)
  (dl : option string) :
  (if sl then s (strings a) else l (strings a)) = Some y ->
  isMe a (Some z) sl = Some dl ->
  exists rest,
    z = (y ++ rest)%string /\
    (y = "" \/ Z.of_nat (String.length y) <= max_string_length) /\
    match rest with
    | EmptyString => dl = None
    | String c rest' =>
        if sl then dl = Some (if isDelim c then rest' else rest)
        else isDelim c = true /\ dl = Some rest'
    end.
Proof.
  intros Hy. unfold arguments.isMe. rewrite Hy.
  destruct (isMe_loop max_string_length z y 0) as [[x' y']|] eqn:Hl;
    [|discriminate].
  destruct (isMe_loop_split _ _ _ _ _ Hl) as (p & Hz & Hp & Hlen).
  destruct y' as [|cy y']; [|discriminate].
  rewrite append_nil_r in Hp. subst p.
  intros Hd. exists x'. split; [exact Hz|]. split; [destruct Hlen; [left|right]; auto; lia|].
  destruct x' as [|c rest'].
  - inversion Hd. reflexivity.
  - destruct sl.
    + inversion Hd. reflexivity.
    + destruct (isDelim c); [|discriminate]. inversion Hd. auto.
Qed.

(** X1. A spelling with more than [max_string_length] characters is never
    matched, in neither mode and whatever the token is. *)
Theorem spelling_longer_than_max_never_matches
  (a : argObjBase) (y z : string) (sl : bool) :
  (if sl then s (strings a) else l (strings a)) = Some y ->
  y <> "" ->
  max_string_length < Z.of_nat (String.length y) ->
  isMe a (Some z) sl = None.
Proof.
  intros Hy Hne Hlen.
  destruct (isMe a (Some z) sl) as [dl|] eqn:Hm; [|reflexivity].
  destruct (isMe_inv a y z sl dl Hy Hm) as (rest & _ & [Hy0|Hle] & _);
    [congruence|lia].
Qed.

(** X2. In long mode a spelling that fits [max_string_length] matches exactly
    two kinds of text: the spelling itself (no embedded value), and the
    spelling followed by one delimiter character (the embedded value is
    everything after it).  A longer or shorter name never matches. *)
Theorem long_spelling_matches_exactly
  (a : argObjBase) (y z : string) (dl : option string) :
  l (strings a) = Some y ->
  Z.of_nat (String.length y) <= max_string_length ->
  (isMe a (Some z) false = Some dl <->
   (z = y /\ dl = None) \/
   (exists c v, z = (y ++ String c v)%string /\ isDelim c = true /\ dl = Some v)).
Proof.
  intros Hy Hlen. split.
  - intros Hm.
    destruct (isMe_inv a y z false dl Hy Hm) as (rest & Hz & _ & Hrest).
    destruct rest as [|c rest'].
    + left. rewrite append_nil_r in Hz. auto.
    + right. destruct Hrest as [Hc Hd]. exists c, rest'. auto.
  - intros [[-> ->]|(c & v & -> & Hc & ->)].
    + rewrite <- (append_nil_r y) at 1.
      rewrite (isMe_spelling max_string_length delims a y "" false Hy Hlen).
      reflexivity.
    + rewrite (isMe_spelling max_string_length delims a y _ false Hy Hlen).
      rewrite Hc. reflexivity.
Qed.

(** X3. In short mode a spelling that fits [max_string_length] matches every
    text it is a prefix of, and no other: with nothing left there is no
    embedded value; otherwise the embedded value is what is left, less one
    leading delimiter character if there is one. *)
Theorem short_spelling_matches_by_prefix
  (a : argObjBase) (y z : string) (dl : option string) :
  s (strings a) = Some y ->
  Z.of_nat (String.length y) <= max_string_length ->
  (isMe a (Some z) true = Some dl <->
   exists rest,
     z = (y ++ rest)%string /\
     dl = match rest with
          | EmptyString => None
          | String c rest' => Some (if isDelim c then rest' else rest)
          end).
Proof.
  intros Hy Hlen. split.
  - intros Hm.
    destruct (isMe_inv a y z true dl Hy Hm) as (rest & Hz & _ & Hrest).
    exists rest. split; [exact Hz|]. destruct rest; exact Hrest.
  - intros (rest & -> & ->).
    rewrite (isMe_spelling max_string_length delims a y rest true Hy Hlen).
    destruct rest; reflexivity.
Qed.

(** *** The default consumer *)

Lemma isMe_null (a : argObjBase) (sl : bool) :
  isMe a None sl =
  match (if sl then s (strings a) else l (strings a)) with
  | None => Some None
  | Some _ => None
  end.
Proof.
  unfold arguments.isMe.
  destruct (if sl then s (strings a) else l (strings a)); reflexivity.
Qed.

Lemma findDefault_from_spec (os : list argObjBase) (i : nat) :
  match findDefault_from max_string_length delims i os with
  | registered j =>
      exists pre a post,
        os = pre ++ a :: post /\ j = (i + List.length pre)%nat /\
        s (strings a) = None /\ l (strings a) = None /\
        Forall (fun b => s (strings b) <> None \/ l (strings b) <> None) pre
  | no =>
      Forall (fun b => s (strings b) <> None \/ l (strings b) <> None) os
  end.
Proof.
  revert i. induction os as [|a os IH]; intros i; simpl.
  - constructor.
  - rewrite !isMe_null. simpl.
    destruct (l (strings a)) as [lg|] eqn:Hl.
    + specialize (IH (S i)).
      destruct (findDefault_from max_string_length delims (S i) os) as [j|].
      * destruct IH as (pre & b & post & -> & -> & Hs & Hl' & Hpre).
        exists (a :: pre), b, post. simpl.
        repeat split; auto; try lia.
        constructor; [right; congruence|exact Hpre].
      * constructor; [right; congruence|exact IH].
    + destruct (s (strings a)) as [sh|] eqn:Hs.
      * specialize (IH (S i)).
        destruct (findDefault_from max_string_length delims (S i) os) as [j|].
        -- destruct IH as (pre & b & post & -> & -> & Hs' & Hl' & Hpre).
           exists (a :: pre), b, post. simpl.
           repeat split; auto; try lia.
           constructor; [left; congruence|exact Hpre].
        -- constructor; [left; congruence|exact IH].
      * exists [], a, os. simpl. repeat split; auto; lia.
Qed.

(** X4. The default (positional) consumer is the first descriptor in
    iteration order whose short and long spellings are both null, that is the
    one registered last among them; it is the sentinel [no] exactly when every
    descriptor has a spelling. *)
Theorem default_consumer_is_first_without_spelling (m : machine) :
  match findDefault m with
  | registered i =>
      exists pre a post,
        options m = pre ++ a :: post /\ List.length pre = i /\
        s (strings a) = None /\ l (strings a) = None /\
        Forall (fun b => s (strings b) <> None \/ l (strings b) <> None) pre
  | no =>
      Forall (fun b => s (strings b) <> None \/ l (strings b) <> None)
             (options m)
  end.
Proof.
  unfold arguments.findDefault.
  pose proof (findDefault_from_spec (options m) 0) as H.
  destruct (findDefault_from max_string_length delims 0 (options m)) as [j|];
    [|exact H].
  destruct H as (pre & a & post & Hm & Hj & Hs & Hl & Hpre).
  exists pre, a, post. repeat split; auto.
Qed.

(** *** Plain tokens *)

Lemma proc_plain (tok : string) (q : queue) (defOp : target) (m : machine) :
  plain tok ->
  proc (tok :: q) defOp m =
  Ret (if fst (setMe defOp tok m) then allgood
       else mkErrorState invalid (Some "default list") (Some tok),
       q, snd (setMe defOp tok m)).
Proof.
  destruct tok as [|c rest]; simpl; [contradiction|]. intros Hc.
  unfold arguments.proc.
  destruct c as [[] [] [] [] [] [] [] []];
    try (destruct (setMe defOp _ m) as [r m']; reflexivity).
  congruence.
Qed.

Lemma assign_push (T : ty) (v : var) (tok : string) (st : store)
  (xs : list value) :
  st v = VList xs ->
  fst (fromString T tok (fresh T)) = true ->
  assign (TList T) v tok st =
  (true, upd v (VList (xs ++ [snd (fromString T tok (fresh T))])) st).
Proof.
  intros Hv Hok. unfold assign. simpl. rewrite Hv.
  destruct (fromString T tok (fresh T)) as [r x]. simpl in *. subst r.
  reflexivity.
Qed.


Lemma run_nil (f : nat) (defOp : target) (r : option errorState) (m : machine) :
  run f [] defOp r m = Ret (r, [], m).
Proof. destruct f; reflexivity. Qed.

(** X5. Plain tokens handed to a positional consumer that is a container of
    strings are appended to it one by one, in the order of the command line;
    every step is [ok], the queue is emptied, and no other variable
    changes. *)
Theorem positional_tokens_accumulate
  (i : nat) (v : var) (toks : list string) :
  forall (a : argObjBase) (xs : list value) (r : option errorState)
         (m : machine),
  nth_error (options m) i = Some a ->
  isArgObj (TList TString) v a ->
  vars m v = VList xs ->
  Forall plain toks ->
  exists m',
    run (weight toks) toks (registered i) r m =
      Ret (match toks with [] => r | _ :: _ => Some allgood end, [], m') /\
    vars m' v = VList (xs ++ map VString toks) /\
    (forall y, y <> v -> vars m' y = vars m y) /\
    calls m' = calls m ++ map (pair (registered i)) toks.
Proof.
  induction toks as [|tok toks IH]; intros a xs r m Hi Ha Hv Hplain.
  - exists m. rewrite run_nil. simpl. rewrite !app_nil_r. auto.
  - inversion Hplain as [|? ? Htok Hrest]; subst.
    destruct Ha as [Hn Hc].
    pose proof (proc_plain tok toks (registered i) m Htok) as Hp.
    rewrite (setMe_registered i a tok m Hi) in Hp. rewrite Hc in Hp.
    rewrite (assign_push TString v tok (vars m) xs Hv eq_refl) in Hp.
    cbn [fst snd] in Hp.
    set (m1 := mkMachine (replace i (mark_seen a) (options m))
                 (upd v (VList (xs ++ [snd (fromString TString tok (fresh TString))]))
                      (vars m))
                 (calls m ++ [(registered i, tok)])) in *.
    assert (Hi1 : nth_error (options m1) i = Some (mark_seen a)).
    { simpl. apply nth_error_replace_same. apply nth_error_Some. congruence. }
    assert (Hv1 : vars m1 v = VList (xs ++ [VString tok])).
    { simpl. unfold upd. rewrite String.eqb_refl. reflexivity. }
    destruct (IH (mark_seen a) (xs ++ [VString tok]) (Some allgood) m1 Hi1
                 (conj Hn Hc) Hv1 Hrest) as (m' & Hrun & Hv' & Hoth & Hcalls).
    exists m'. split.
    + rewrite (run_step max_string_length delims _ _ _ r _ _ _ Hp eq_refl).
      rewrite Hrun. destruct toks; reflexivity.
    + split; [rewrite Hv', <- app_assoc; reflexivity|]. split.
      * intros y Hy. rewrite (Hoth y Hy). simpl. unfold upd.
        destruct (String.eqb v y) eqn:E; [|reflexivity].
        apply String.eqb_eq in E. congruence.
      * rewrite Hcalls. simpl. rewrite <- app_assoc. reflexivity.
Qed.

(** X6. Without a registered null-spelling option the first token is a plain
    one: the parse ends at once with [invalid], operand "default list" and the
    token as value; no variable and no descriptor has changed. *)
Theorem plain_token_without_consumer_is_invalid
  (prog tok : string) (rest : queue) (m : machine) :
  findDefault m = no ->
  plain tok ->
  populate (Z.of_nat (S (List.length (tok :: rest)))) (prog :: tok :: rest) m =
  Ret (mkErrorState invalid (Some "default list") (Some tok),
       mkMachine (options m) (vars m) (calls m ++ [(no, tok)])).
Proof.
  intros Hno Hplain.
  assert (Hp : proc (tok :: rest) (findDefault m) m =
               Ret (mkErrorState invalid (Some "default list") (Some tok), rest,
                    mkMachine (options m) (vars m) (calls m ++ [(no, tok)]))).
  { rewrite Hno, (proc_plain tok rest no m Hplain). reflexivity. }
  rewrite (populate_first_step max_string_length delims prog _ _ _ _ _ Hp).
  reflexivity.
Qed.

(** *** Option tokens *)

Lemma run_undefined (q : queue) (defOp : target) (r : option errorState)
  (m : machine) (u : undefined) :
  q <> [] ->
  proc q defOp m = Undefined u ->
  run (weight q) q defOp r m = Undefined u.
Proof.
  intros Hq Hp. destruct q as [|tok q]; [congruence|].
  simpl. rewrite Hp. reflexivity.
Qed.

Lemma proc_flag (c1 : ascii) (op2 : string) (q : queue) (defOp : target)
  (m : machine) (i : nat) (delm : option string) (a : argObjBase) :
  findArg_op m (String c1 op2) = Some (i, delm) ->
  nth_error (options m) i = Some a ->
  numArgs a = 0 ->
  proc (String "-" (String c1 op2) :: q) defOp m =
  Ret (if fst (setMe (registered i) "true" m) then allgood
       else mkErrorState invalid (Some (String "-" (String c1 op2)))
                         (Some "true"),
       match delm with Some dl => dl :: q | None => q end,
       snd (setMe (registered i) "true" m)).
Proof.
  intros Hfind Hi Hn.
  rewrite proc_option_token, Hfind. cbv zeta. rewrite Hi, Hn. simpl.
  destruct (setMe (registered i) "true" m) as [r m']. reflexivity.
Qed.

(** X7. When the value handed to an option of arity 1 does not convert, the
    step and the loop end with [invalid], the whole option token (dashes and
    any embedded text included) as operand and the value token as value; the
    option is marked as seen all the same, and what the converter wrote
    stays. *)
Theorem rejected_value_is_reported
  (m : machine) (defOp : target) (r : option errorState) (op1 val0 : string)
  (q q' : queue) (i : nat) (delm : option string) (a : argObjBase) :
  op1 <> "" ->
  findArg_op m op1 = Some (i, delm) ->
  nth_error (options m) i = Some a ->
  numArgs a <> 0 ->
  match delm with Some dl => dl :: q | None => q end = val0 :: q' ->
  fst (conv a val0 (vars m)) = false ->
  let e := mkErrorState invalid (Some (String "-" op1)) (Some val0) in
  exists m',
    proc (String "-" op1 :: q) defOp m = Ret (e, q', m') /\
    run (weight (String "-" op1 :: q)) (String "-" op1 :: q) defOp r m =
      Ret (Some e, q', m') /\
    nth_error (options m') i = Some (mark_seen a) /\
    vars m' = snd (conv a val0 (vars m)).
Proof.
  intros Hop Hfind Hi Hn Hq Hfail e.
  destruct op1 as [|c1 op2]; [congruence|].
  pose proof (proc_found max_string_length delims c1 op2 q q' defOp m i delm a
                val0 Hfind Hi Hn Hq) as Hp.
  rewrite (setMe_registered i a val0 m Hi) in Hp. cbn [fst snd] in Hp.
  rewrite Hfail in Hp.
  eexists. split; [exact Hp|]. split.
  - apply (run_stop max_string_length delims _ _ _ r _ _ _ Hp). discriminate.
  - split; [|reflexivity]. simpl.
    apply nth_error_replace_same. apply nth_error_Some. congruence.
Qed.

(** X8. An option of arity 1 that is the last token and carries no embedded
    value makes [proc] take the front of an empty queue: the parse has no
    defined result. *)
Theorem option_without_value_is_undefined
  (c : Z) (argv : list string) (m : machine) (args : queue)
  (op1 : string) (m1 : machine) (i : nat) (a : argObjBase) :
  push_args (Z.to_nat c) argv [] = Ret args ->
  reaches (findDefault m) (args, m) ([String "-" op1], m1) ->
  op1 <> "" ->
  findArg_op m1 op1 = Some (i, None) ->
  nth_error (options m1) i = Some a ->
  numArgs a <> 0 ->
  proc [String "-" op1] (findDefault m) m1 = Undefined front_of_empty /\
  populate c argv m = Undefined front_of_empty.
Proof.
  intros Hargs Hreach Hop Hfind Hi Hn.
  assert (Hp : proc [String "-" op1] (findDefault m) m1 =
               Undefined front_of_empty).
  { destruct op1 as [|c1 op2]; [congruence|].
    rewrite proc_option_token, Hfind. cbv zeta. rewrite Hi.
    replace (numArgs a =? 0) with false
      by (symmetry; apply Z.eqb_neq; exact Hn).
    reflexivity. }
  split; [exact Hp|].
  destruct (run_reaches max_string_length delims _ _ _ Hreach None)
    as [r' Hr']. cbn [fst snd] in Hr'.
  unfold arguments.populate. rewrite Hargs. cbn [bind]. rewrite Hr'.
  assert (Hne : [String "-" op1] <> []) by discriminate.
  rewrite (run_undefined _ _ r' _ _ Hne Hp). reflexivity.
Qed.

(** X9. The token after an option of arity 1 without embedded value is its
    value whatever it looks like: a string option stores it verbatim, be it a
    single dash or the spelling of another option. *)
Theorem next_token_is_the_value
  (m : machine) (defOp : target) (op1 val0 : string) (q : queue)
  (i : nat) (a : argObjBase) (v : var) :
  op1 <> "" ->
  findArg_op m op1 = Some (i, None) ->
  nth_error (options m) i = Some a ->
  isArgObj TString v a ->
  exists m',
    proc (String "-" op1 :: val0 :: q) defOp m = Ret (allgood, q, m') /\
    vars m' v = VString val0 /\
    calls m' = calls m ++ [(registered i, val0)].
Proof.
  intros Hop Hfind Hi [Hn Hc].
  destruct op1 as [|c1 op2]; [congruence|].
  assert (Hn0 : numArgs a <> 0) by (rewrite Hn; discriminate).
  pose proof (proc_found max_string_length delims c1 op2 (val0 :: q) q defOp m
                i None a val0 Hfind Hi Hn0 eq_refl) as Hp.
  rewrite (setMe_registered i a val0 m Hi) in Hp. rewrite Hc in Hp.
  cbn [fst snd assign fromString fromString_string] in Hp.
  eexists. split; [exact Hp|]. simpl. split; [|reflexivity].
  unfold upd. rewrite String.eqb_refl. reflexivity.
Qed.


(** X11. Two dashes alone are no end-of-options marker: unless a descriptor
    has the empty long spelling, the token [--] is an unknown option. *)
Theorem double_dash_is_an_unknown_option
  (m : machine) (defOp : target) (q : queue) :
  (forall a, In a (options m) -> l (strings a) <> Some "") ->
  proc ("--" :: q) defOp m = Ret (mkErrorState unknown (Some "--") None, q, m).
Proof.
  intros Hl.
  rewrite proc_option_token, findArg_op_long.
  unfold arguments.findArg.
  rewrite findArg_from_none; [reflexivity|].
  apply Forall_forall. intros a Ha. specialize (Hl a Ha).
  unfold arguments.isMe.
  destruct (l (strings a)) as [[|cy y]|]; [congruence|reflexivity|reflexivity].
Qed.

(** *** What a parse keeps *)

Section Invariant.

(** A property of the machine that every call of a setter keeps. *)
Variable P : machine -> Prop.
Hypothesis P_setMe : forall a v0 m, P m -> P (snd (setMe a v0 m)).

Lemma take_all_invariant (q q' : queue) (defOp : target) (m m' : machine)
  (e : errorState) :
  P m -> take_all q defOp m = (e, q', m') -> P m'.
Proof.
  revert m. induction q as [|v0 q IH]; intros m Hm Ht; simpl in Ht.
  - inversion Ht; subst. exact Hm.
  - pose proof (P_setMe defOp v0 m Hm) as Hm1.
    destruct (setMe defOp v0 m) as [[|] m1]; simpl in Hm1.
    + exact (IH _ Hm1 Ht).
    + inversion Ht; subst. exact Hm1.
Qed.

Lemma proc_invariant (q q' : queue) (defOp : target) (m m' : machine)
  (e : errorState) :
  P m -> proc q defOp m = Ret (e, q', m') -> P m'.
Proof.
  intros Hm. unfold arguments.proc.
  repeat match goal with
         | |- context [match ?x with _ => _ end] =>
             match x with
             | setMe _ _ _ => fail 1
             | take_all _ _ _ => fail 1
             | _ => destruct x
             end
         end;
    try discriminate;
    try (intros H; inversion H; subst; exact Hm);
    try (intros H; inversion H as [Ht];
         exact (take_all_invariant _ _ _ _ _ _ Hm Ht));
    match goal with
    | |- context [setMe ?a ?v0 ?m0] =>
        pose proof (P_setMe a v0 m0 Hm) as Hm1;
        destruct (setMe a v0 m0) as [r m1]; simpl in Hm1;
        intros H; inversion H; subst; exact Hm1
    end.
Qed.

Lemma run_invariant (f : nat) (q q' : queue) (defOp : target)
  (r r' : option errorState) (m m' : machine) :
  P m -> run f q defOp r m = Ret (r', q', m') -> P m'.
Proof.
  revert q r m. induction f as [|f IH]; intros q r m Hm Hrun.
  - destruct q; simpl in Hrun; [|discriminate]. inversion Hrun; subst. exact Hm.
  - destruct q as [|tok q]; simpl in Hrun.
    + inversion Hrun; subst. exact Hm.
    + destruct (proc (tok :: q) defOp m) as [[[e q1] m1]| |] eqn:Hp;
        simpl in Hrun; try discriminate.
      pose proof (proc_invariant _ _ _ _ _ _ Hm Hp) as Hm1.
      destruct (state e).
      * exact (IH _ _ _ Hm1 Hrun).
      * inversion Hrun; subst. exact Hm1.
      * inversion Hrun; subst. exact Hm1.
Qed.

Lemma setDefaults_invariant (m : machine) : P m -> P (setDefaults m).
Proof.
  unfold setDefaults. generalize (seq 0 (List.length (options m))).
  intros idx. revert m. induction idx as [|i idx IH]; intros m Hm; simpl.
  - exact Hm.
  - apply IH. unfold setDefaults_step.
    destruct (nth_error (options m) i) as [a|]; [|exact Hm].
    destruct (seen a); [exact Hm|].
    destruct (d (strings a)) as [dflt|]; [|exact Hm].
    apply P_setMe. exact Hm.
Qed.

Lemma populate_invariant (c : Z) (argv : list string) (m m' : machine)
  (e : errorState) :
  P m -> populate c argv m = Ret (e, m') -> P m'.
Proof.
  intros Hm. unfold arguments.populate.
  destruct (push_args (Z.to_nat c) argv []) as [args| |]; cbn [bind];
    try discriminate.
  destruct (run (weight args) args (findDefault m) None m)
    as [[[[r|] q] m1]| |] eqn:Hrun; cbn [bind]; try discriminate.
  pose proof (run_invariant _ _ _ _ _ _ _ _ Hm Hrun) as Hm1.
  destruct (state r); intros H; inversion H; subst;
    [apply setDefaults_invariant|..]; exact Hm1.
Qed.

End Invariant.

Lemma Forall2_replace {A B : Type} (R : A -> B -> Prop) (xs : list A)
  (ys : list B) (i : nat) (y y' : B) :
  Forall2 R xs ys ->
  nth_error ys i = Some y ->
  (forall x, R x y -> R x y') ->
  Forall2 R xs (replace i y' ys).
Proof.
  intros H. revert i. induction H as [|x y0 xs ys Hxy Hrest IH]; intros i Hi Hy.
  - destruct i; discriminate.
  - destruct i as [|i]; simpl in *.
    + inversion Hi; subst. constructor; [apply Hy; exact Hxy|exact Hrest].
    + constructor; [exact Hxy|]. apply IH; assumption.
Qed.

Lemma same_registry_refl (m : machine) : same_registry m m.
Proof.
  unfold same_registry. induction (options m) as [|a os IH]; constructor;
    [|exact IH].
  repeat split; auto.
Qed.

Lemma same_registry_setMe (m0 m : machine) (a : target) (v0 : string) :
  same_registry m0 m -> same_registry m0 (snd (setMe a v0 m)).
Proof.
  intros H. destruct a as [i|]; [|exact H].
  unfold setMe. destruct (nth_error (options m) i) as [o|] eqn:Hi; [|exact H].
  destruct (conv o v0 (vars m)) as [r st]. simpl.
  unfold same_registry in *. simpl.
  apply (Forall2_replace _ _ _ i o (mark_seen o) H Hi).
  intros x (Hs & Hn & Hc & _). repeat split; auto.
Qed.

(** X12. A parse that returns leaves the registry as it found it, seen flags
    apart: the same descriptors in the same order, with the same strings,
    arity and conversion; and no seen flag that was set is cleared. *)
Theorem populate_keeps_the_registry
  (c : Z) (argv : list string) (m m' : machine) (e : errorState) :
  populate c argv m = Ret (e, m') -> same_registry m m'.
Proof.
  apply (populate_invariant (same_registry m)).
  - intros a v0 m1. apply same_registry_setMe.
  - apply same_registry_refl.
Qed.

(** X13. A variable that no registered descriptor is bound to has, after a
    parse that returns, the value it had before. *)
Theorem populate_keeps_unbound_variables
  (c : Z) (argv : list string) (m m' : machine) (e : errorState) (y : var) :
  (forall b, In b (options m) -> leaves b y) ->
  populate c argv m = Ret (e, m') ->
  vars m' y = vars m y.
Proof.
  intros Hleave Hpop.
  set (P := fun m1 : machine =>
              (forall b, In b (options m1) -> leaves b y) /\
              vars m1 y = vars m y).
  assert (Hset : forall a v0 m1, P m1 -> P (snd (setMe a v0 m1))).
  { intros a v0 m1 [Hl Hv]. destruct a as [i|]; [|split; auto].
    unfold setMe.
    destruct (nth_error (options m1) i) as [o|] eqn:Hi; [|split; auto].
    pose proof (Hl o (nth_error_In _ _ Hi)) as Ho.
    specialize (Ho v0 (vars m1)).
    destruct (conv o v0 (vars m1)) as [r st]. simpl in *.
    split; [|simpl; congruence].
    simpl. intros b Hb.
    assert (Hb' : In b (options m1) \/ b = mark_seen o).
    { clear - Hb. revert i Hb. induction (options m1) as [|z os IH];
        intros [|i] Hb; simpl in *; try tauto.
      - destruct Hb as [<-|Hb]; auto.
      - destruct Hb as [<-|Hb]; auto.
        destruct (IH _ Hb); auto. }
    destruct Hb' as [Hb'| ->]; [exact (Hl b Hb')|].
    exact (Hl o (nth_error_In _ _ Hi)). }
  assert (Hinit : P m) by (split; auto).
  exact (proj2 (populate_invariant P Hset c argv m m' e Hinit Hpop)).
Qed.

(** *** Defaults and repeated options *)

Lemma setDefaults_fold_nth (idx : list nat) (m : machine) (i : nat) :
  ~ In i idx ->
  nth_error (options (fold_left setDefaults_step idx m)) i =
  nth_error (options m) i.
Proof.
  revert m. induction idx as [|j idx IH]; intros m Hi; simpl; [reflexivity|].
  rewrite IH by (intros H; apply Hi; right; exact H).
  apply setDefaults_step_nth. intros ->. apply Hi. left. reflexivity.
Qed.

Lemma setDefaults_step_marks (m : machine) (i : nat) (a : argObjBase) :
  nth_error (options (setDefaults_step m i)) i = Some a ->
  d (strings a) <> None -> seen a = true.
Proof.
  unfold setDefaults_step.
  destruct (nth_error (options m) i) as [a0|] eqn:Hi; [|congruence].
  destruct (seen a0) eqn:Hs; [congruence|].
  destruct (d (strings a0)) as [dflt|] eqn:Hd; [|congruence].
  rewrite (setMe_registered i a0 dflt m Hi). simpl.
  rewrite nth_error_replace_same by (apply nth_error_Some; congruence).
  intros H _. inversion H. reflexivity.
Qed.

Lemma setDefaults_split (m : machine) (i : nat) :
  (i < List.length (options m))%nat ->
  setDefaults m =
  fold_left setDefaults_step (seq (S i) (List.length (options m) - S i))
    (setDefaults_step (fold_left setDefaults_step (seq 0 i) m) i).
Proof.
  intros Hlt. unfold setDefaults.
  replace (List.length (options m))
    with (i + S (List.length (options m) - S i))%nat at 1 by lia.
  rewrite seq_app, fold_left_app. reflexivity.
Qed.

Lemma setDefaults_length (m : machine) :
  List.length (options (setDefaults m)) = List.length (options m).
Proof.
  symmetry. apply (Forall2_length (R := same_descriptor)).
  apply (setDefaults_invariant (same_registry m)).
  - intros a v0 m1. apply same_registry_setMe.
  - apply same_registry_refl.
Qed.

Lemma setDefaults_marks (m : machine) (i : nat) (a : argObjBase) :
  nth_error (options (setDefaults m)) i = Some a ->
  d (strings a) <> None -> seen a = true.
Proof.
  intros Hi Hd.
  assert (Hlt : (i < List.length (options m))%nat).
  { rewrite <- setDefaults_length. apply nth_error_Some. congruence. }
  rewrite (setDefaults_split m i Hlt) in Hi.
  rewrite setDefaults_fold_nth in Hi by (rewrite in_seq; lia).
  exact (setDefaults_step_marks _ _ _ Hi Hd).
Qed.

(** X14. After a parse that returns [ok] every descriptor that has a default
    string is marked as seen, given on the command line or not: the flag does
    not tell the two apart afterwards. *)
Theorem defaulted_options_end_seen
  (c : Z) (argv : list string) (m m' : machine) (e : errorState)
  (a : argObjBase) :
  populate c argv m = Ret (e, m') ->
  state e = ok ->
  In a (options m') ->
  d (strings a) <> None ->
  seen a = true.
Proof.
  unfold arguments.populate.
  destruct (push_args (Z.to_nat c) argv []) as [args| |]; cbn [bind];
    try discriminate.
  destruct (run (weight args) args (findDefault m) None m)
    as [[[[r|] q] m1]| |]; cbn [bind]; try discriminate.
  destruct (state r) eqn:Hr; intros H He Hin Hd; inversion H; subst;
    try congruence.
  destruct (In_nth_error _ _ Hin) as [i Hi].
  exact (setDefaults_marks m1 i a Hi Hd).
Qed.

(** X15. An unseen [argObj<T>] with a default string ends, after a loop that
    was [ok], with its variable as the converter leaves it on the default
    string: the same value the string would give as a value on the command
    line.  (No other descriptor is bound to that variable.) *)
Theorem unseen_option_gets_its_default
  (c : Z) (argv : list string) (m : machine) (args q : queue)
  (e : errorState) (m1 : machine)
  (i : nat) (a : argObjBase) (T : ty) (v : var) (dflt : string) :
  push_args (Z.to_nat c) argv [] = Ret args ->
  run (weight args) args (findDefault m) None m = Ret (Some e, q, m1) ->
  state e = ok ->
  nth_error (options m1) i = Some a ->
  isArgObj T v a -> seen a = false -> d (strings a) = Some dflt ->
  others_leave i v m1 ->
  exists m',
    populate c argv m = Ret (e, m') /\
    vars m' v = snd (fromString T dflt (vars m1 v)) /\
    vars m' v = vars (snd (setMe (registered i) dflt m1)) v.
Proof.
  intros Hargs Hrun He Hi Ha Hseen Hd Halone.
  exists (setDefaults m1). split.
  { unfold arguments.populate. rewrite Hargs. cbn [bind].
    rewrite Hrun. cbn [bind]. rewrite He. reflexivity. }
  destruct (setDefaults_at i v m1 a T dflt Hi Ha Hseen Hd Halone) as [Hv _].
  split; [exact Hv|].
  rewrite Hv, (setMe_registered i a dflt m1 Hi). simpl.
  destruct Ha as [_ Hc]. rewrite Hc. unfold assign.
  destruct (fromString T dflt (vars m1 v)) as [r x]. simpl.
  unfold upd. rewrite String.eqb_refl. reflexivity.
Qed.

(** X16. The defaults never override a value from the command line: the
    variable of a descriptor that is seen when the loop ends [ok] is the same
    after [setDefaults].  (No other descriptor is bound to that variable.) *)
Theorem supplied_value_is_not_overridden
  (c : Z) (argv : list string) (m : machine) (args q : queue)
  (e : errorState) (m1 : machine) (i : nat) (a : argObjBase) (v : var) :
  push_args (Z.to_nat c) argv [] = Ret args ->
  run (weight args) args (findDefault m) None m = Ret (Some e, q, m1) ->
  state e = ok ->
  nth_error (options m1) i = Some a ->
  seen a = true ->
  others_leave i v m1 ->
  exists m',
    populate c argv m = Ret (e, m') /\ vars m' v = vars m1 v.
Proof.
  intros Hargs Hrun He Hi Hseen Halone.
  exists (setDefaults m1). split.
  { unfold arguments.populate. rewrite Hargs. cbn [bind].
    rewrite Hrun. cbn [bind]. rewrite He. reflexivity. }
  assert (Hlt : (i < List.length (options m1))%nat)
    by (apply nth_error_Some; congruence).
  rewrite (setDefaults_split m1 i Hlt).
  destruct (setDefaults_fold_frame i v (seq 0 i) m1) as (Hv1 & Hn1 & Ha1);
    [rewrite in_seq; lia|exact Halone|].
  set (m2 := fold_left setDefaults_step (seq 0 i) m1) in *.
  assert (Hstep : setDefaults_step m2 i = m2).
  { unfold setDefaults_step. rewrite Hn1, Hi, Hseen. reflexivity. }
  rewrite Hstep.
  destruct (setDefaults_fold_frame i v
              (seq (S i) (List.length (options m1) - S i)) m2)
    as (Hv3 & _ & _); [rewrite in_seq; lia|exact Ha1|].
  congruence.
Qed.


(** *** The calls the engine makes *)

Section Calls.

Variable P : machine -> Prop.
Variable defOp : target.
Hypothesis P_call :
  forall a v0 m, P m -> permitted defOp m a v0 -> P (snd (setMe a v0 m)).

Lemma take_all_calls (q q' : queue) (m m' : machine) (e : errorState) :
  P m -> take_all q defOp m = (e, q', m') -> P m'.
Proof.
  revert m. induction q as [|v0 q IH]; intros m Hm Ht; simpl in Ht.
  - inversion Ht; subst. exact Hm.
  - pose proof (P_call defOp v0 m Hm (or_introl eq_refl)) as Hm1.
    destruct (setMe defOp v0 m) as [[|] m1]; simpl in Hm1.
    + exact (IH _ Hm1 Ht).
    + inversion Ht; subst. exact Hm1.
Qed.

Lemma proc_calls (q q' : queue) (m m' : machine) (e : errorState) :
  P m -> proc q defOp m = Ret (e, q', m') -> P m'.
Proof.
  intros Hm. destruct q as [|tok q]; [discriminate|].
  destruct tok as [|c0 op1]; [intros H; inversion H; subst; exact Hm|].
  destruct (ascii_dec c0 "-") as [->|Hc0].
  - destruct op1 as [|c1 op2].
    + rewrite proc_single_dash. intros H. inversion H as [Ht].
      exact (take_all_calls _ _ _ _ _ Hm Ht).
    + rewrite proc_option_token.
      destruct (findArg_op m (String c1 op2)) as [[i delm]|];
        [|intros H; inversion H; subst; exact Hm].
      cbv zeta.
      destruct (nth_error (options m) i) as [a|] eqn:Hi; [|discriminate].
      destruct (numArgs a =? 0) eqn:Hn.
      * apply Z.eqb_eq in Hn.
        assert (Hm1 : P (snd (setMe (registered i) "true" m))).
        { apply P_call; [exact Hm|]. right. exists i, a. auto. }
        destruct (setMe (registered i) "true" m) as [r m1]. simpl in Hm1.
        intros H; inversion H; subst. exact Hm1.
      * apply Z.eqb_neq in Hn.
        destruct (match delm with Some dl => dl :: q | None => q end)
          as [|val0 q1]; [discriminate|].
        assert (Hm1 : P (snd (setMe (registered i) val0 m))).
        { apply P_call; [exact Hm|]. right. exists i, a. auto. }
        destruct (setMe (registered i) val0 m) as [r m1]. simpl in Hm1.
        intros H; inversion H; subst. exact Hm1.
  - rewrite (proc_plain (String c0 op1) q defOp m Hc0).
    intros H. inversion H; subst.
    apply P_call; [exact Hm|left; reflexivity].
Qed.

Lemma run_calls (f : nat) (q q' : queue) (r r' : option errorState)
  (m m' : machine) :
  P m -> run f q defOp r m = Ret (r', q', m') -> P m'.
Proof.
  revert q r m. induction f as [|f IH]; intros q r m Hm Hrun.
  - destruct q; simpl in Hrun; [|discriminate]. inversion Hrun; subst. exact Hm.
  - destruct q as [|tok q]; simpl in Hrun.
    + inversion Hrun; subst. exact Hm.
    + destruct (proc (tok :: q) defOp m) as [[[e q1] m1]| |] eqn:Hp;
        simpl in Hrun; try discriminate.
      pose proof (proc_calls _ _ _ _ _ Hm Hp) as Hm1.
      destruct (state e).
      * exact (IH _ _ _ Hm1 Hrun).
      * inversion Hrun; subst. exact Hm1.
      * inversion Hrun; subst. exact Hm1.
Qed.

Lemma setDefaults_calls (m : machine) : P m -> P (setDefaults m).
Proof.
  unfold setDefaults. generalize (seq 0 (List.length (options m))).
  intros idx. revert m. induction idx as [|i idx IH]; intros m Hm; simpl.
  - exact Hm.
  - apply IH. unfold setDefaults_step.
    destruct (nth_error (options m) i) as [a|] eqn:Hi; [|exact Hm].
    destruct (seen a) eqn:Hs; [exact Hm|].
    destruct (d (strings a)) as [dflt|] eqn:Hd; [|exact Hm].
    apply P_call; [exact Hm|]. right. exists i, a.
    split; [reflexivity|]. split; [exact Hi|]. right. right. split; assumption.
Qed.

End Calls.

Lemma populate_calls (P : machine -> Prop) (c : Z) (argv : list string)
  (m m' : machine) (e : errorState) :
  (forall a v0 m1, P m1 -> permitted (findDefault m) m1 a v0 ->
                   P (snd (setMe a v0 m1))) ->
  P m -> populate c argv m = Ret (e, m') -> P m'.
Proof.
  intros Hcall Hm. unfold arguments.populate.
  destruct (push_args (Z.to_nat c) argv []) as [args| |]; cbn [bind];
    try discriminate.
  destruct (run (weight args) args (findDefault m) None m)
    as [[[[r|] q] m1]| |] eqn:Hrun; cbn [bind]; try discriminate.
  pose proof (run_calls P (findDefault m) Hcall _ _ _ _ _ _ _ Hm Hrun) as Hm1.
  destruct (state r); intros H; inversion H; subst;
    [apply (setDefaults_calls P (findDefault m) Hcall)|..]; exact Hm1.
Qed.

Lemma Forall2_nth_error_r {A B : Type} (R : A -> B -> Prop) (xs : list A)
  (ys : list B) (i : nat) (y : B) :
  Forall2 R xs ys -> nth_error ys i = Some y ->
  exists x, nth_error xs i = Some x /\ R x y.
Proof.
  intros H. revert i. induction H as [|x y0 xs ys Hxy _ IH]; intros i Hi.
  - destruct i; discriminate.
  - destruct i as [|i]; simpl in *.
    + inversion Hi; subst. exists x. auto.
    + exact (IH i Hi).
Qed.

Lemma findDefault_null (m : machine) (j : nat) (b : argObjBase) :
  findDefault m = registered j ->
  nth_error (options m) j = Some b ->
  s (strings b) = None /\ l (strings b) = None.
Proof.
  intros Hd Hj. unfold arguments.findDefault in Hd.
  pose proof (findDefault_from_spec (options m) 0) as H. rewrite Hd in H.
  destruct H as (pre & a & post & Hm & Hj' & Hs & Hl & _).
  simpl in Hj'. subst j. rewrite Hm, nth_error_middle in Hj.
  inversion Hj; subst. auto.
Qed.

(** A flag with a spelling and no default is only ever set from "true":
    whatever holds of its variable and of [true] holds after the parse. *)
Lemma flag_only_switched_on (Q : value -> Prop) (c : Z) (argv : list string)
  (m m' : machine) (e : errorState) (i : nat) (a : argObjBase) (v : var) :
  nth_error (options m) i = Some a ->
  isArgObj TBool v a ->
  d (strings a) = None ->
  s (strings a) <> None \/ l (strings a) <> None ->
  others_leave i v m ->
  Q (VBool true) ->
  Q (vars m v) ->
  populate c argv m = Ret (e, m') ->
  Q (vars m' v).
Proof.
  intros Hi [Hn Hc] Hd Hsp Halone Qtrue Qm Hpop.
  set (P := fun m1 : machine => same_registry m m1 /\ Q (vars m1 v)).
  assert (Hcall : forall t v0 m1,
             P m1 -> permitted (findDefault m) m1 t v0 ->
             P (snd (setMe t v0 m1))).
  { intros t v0 m1 [Hreg Hq] Hperm.
    split; [apply same_registry_setMe; exact Hreg|].
    destruct t as [j|]; [|exact Hq].
    unfold setMe. destruct (nth_error (options m1) j) as [o|] eqn:Hj;
      [|exact Hq].
    destruct (Forall2_nth_error_r _ _ _ _ _ Hreg Hj)
      as (b & Hb & Hbs & Hbn & Hbc & _).
    destruct (Nat.eq_dec j i) as [->|Hji].
    - assert (b = a) by congruence. subst b.
      assert (Hv0 : v0 = "true").
      { destruct Hperm as [Hdef|(k & o' & Hk & Hk' & Hcase)].
        - destruct (findDefault_null m i a (eq_sym Hdef) Hi) as [Hs0 Hl0].
          destruct Hsp; congruence.
        - inversion Hk; subst k. assert (o' = o) by congruence. subst o'.
          destruct Hcase as [[_ Hv0]|[Hne|[_ Hdd]]]; [exact Hv0| |].
          + exfalso. apply Hne. rewrite Hbn, Hn. reflexivity.
          + rewrite Hbs, Hd in Hdd. discriminate. }
      subst v0. rewrite Hbc, Hc. simpl.
      unfold upd. rewrite String.eqb_refl. exact Qtrue.
    - pose proof (Halone j b Hji Hb v0 (vars m1)) as Hleave.
      rewrite <- Hbc in Hleave.
      destruct (conv o v0 (vars m1)) as [r st]. simpl in *.
      rewrite Hleave. exact Hq. }
  assert (Hinit : P m) by (split; [apply same_registry_refl|exact Qm]).
  exact (proj2 (populate_calls P c argv m m' e Hcall Hinit Hpop)).
Qed.

(** X18. A boolean option that has a spelling and no default can only be
    switched on: after a parse that returns, its variable is true or holds
    what it held before; no command line sets it to false.  (No other
    descriptor is bound to that variable.) *)
Theorem flag_is_never_switched_off
  (c : Z) (argv : list string) (m m' : machine) (e : errorState)
  (i : nat) (a : argObjBase) (v : var) :
  nth_error (options m) i = Some a ->
  isArgObj TBool v a ->
  d (strings a) = None ->
  s (strings a) <> None \/ l (strings a) <> None ->
  others_leave i v m ->
  populate c argv m = Ret (e, m') ->
  vars m' v = VBool true \/ vars m' v = vars m v.
Proof.
  intros Hi Ha Hd Hsp Halone Hpop.
  apply (flag_only_switched_on
           (fun x => x = VBool true \/ x = vars m v)
           c argv m m' e i a v Hi Ha Hd Hsp Halone); auto.
Qed.

(** *** [populateWithHelp] and the output *)

Lemma populateWithHelp_unfold (argc : Z) (argv : list string)
  (os usage : string) (m : machine) :
  populateWithHelp argc argv os usage m =
  bind (populate argc argv (with_help m))
       (fun '(e, m') =>
          if negb (isOk e) then
            Ret (true, (print_errorState os e ++ newline)%string, m')
          else if truth (vars m' help_static) then
            Ret (true,
                 (print_options (if String.eqb usage "" then os
                                 else (os ++ usage ++ newline)%string) m'
                  ++ newline)%string, m')
          else Ret (false, os, m')).
Proof. reflexivity. Qed.

(** X19. Under [populateWithHelp] every token that starts with [-h] (and not
    with two dashes) is the help flag, whatever else is registered: the flag
    is registered last and so visited first, and a short spelling matches by
    prefix.  The rest of the token is pushed back as the next token; a short
    option of the program whose spelling starts with [h] is never reached. *)
Theorem dash_h_is_always_help
  (m : machine) (defOp : target) (z : string) (q : queue) :
  1 <= max_string_length ->
  exists m',
    proc (String "-" (String "h" z) :: q) defOp (with_help m) =
      Ret (allgood,
           match z with
           | EmptyString => q
           | String c z' => (if isDelim c then z' else z) :: q
           end, m') /\
    vars m' help_static = VBool true /\
    calls m' = calls m ++ [(registered 0, "true")].
Proof.
  intros Hmax.
  assert (Hfind : findArg_op (with_help m) (String "h" z) =
                  Some (0%nat,
                        match z with
                        | EmptyString => None
                        | String c z' => Some (if isDelim c then z' else z)
                        end)).
  { rewrite (findArg_op_short max_string_length delims) by discriminate.
    apply (findArg_first max_string_length delims (with_help m) []
             (options m) help_descriptor);
      [reflexivity|constructor|].
    change (String "h" z) with ("h" ++ z)%string.
    rewrite (isMe_spelling max_string_length delims help_descriptor "h" z true
               eq_refl) by (simpl; lia).
    destruct z; reflexivity. }
  pose proof (proc_flag "h" z q defOp (with_help m) 0%nat _ help_descriptor
                Hfind eq_refl eq_refl) as Hp.
  exists (snd (setMe (registered 0) "true" (with_help m))).
  rewrite Hp.
  rewrite (setMe_registered 0 help_descriptor "true" (with_help m) eq_refl).
  cbn [fst snd].
  split; [destruct z; reflexivity|]. split; reflexivity.
Qed.

(** X20. When the first token is an option no descriptor answers to, not the
    help flag either, [populateWithHelp] returns true after writing the line
    [Unknown Option: 'token'] to the stream, and nothing else: no usage text,
    no listing; no variable is set. *)
Theorem unknown_option_message
  (prog op1 os usage : string) (rest : queue) (m : machine) :
  op1 <> "" ->
  findArg_op (with_help m) op1 = None ->
  populateWithHelp (Z.of_nat (S (List.length (String "-" op1 :: rest))))
                   (prog :: String "-" op1 :: rest) os usage m =
  Ret (true,
       ((os ++ "Unknown Option: '" ++ String "-" op1 ++ "'") ++ newline)%string,
       with_help m).
Proof.
  intros Hop Hfind.
  assert (Hp : proc (String "-" op1 :: rest) (findDefault (with_help m))
                    (with_help m) =
               Ret (mkErrorState unknown (Some (String "-" op1)) None, rest,
                    with_help m)).
  { destruct op1 as [|c1 op2]; [congruence|].
    rewrite proc_option_token, Hfind. reflexivity. }
  rewrite populateWithHelp_unfold.
  rewrite (populate_first_step max_string_length delims prog _ _ _ _ _ Hp).
  reflexivity.
Qed.

Lemma findDefault_from_no (os : list argObjBase) (i j : nat) :
  findDefault_from max_string_length delims i os = no ->
  findDefault_from max_string_length delims j os = no.
Proof.
  revert i j. induction os as [|a os IH]; intros i j; simpl; [reflexivity|].
  destruct (isMe a None false); [destruct (isMe a None true)|];
    try discriminate; apply IH.
Qed.

Lemma findDefault_with_help (m : machine) :
  findDefault m = no -> findDefault (with_help m) = no.
Proof.
  unfold arguments.findDefault. intros H.
  change (options (with_help m)) with (help_descriptor :: options m).
  change (findDefault_from max_string_length delims 0
            (help_descriptor :: options m))
    with (match isMe help_descriptor None false,
                isMe help_descriptor None true with
          | Some _, Some _ => registered 0
          | _, _ => findDefault_from max_string_length delims 1 (options m)
          end).
  rewrite (isMe_null help_descriptor false). simpl.
  exact (findDefault_from_no _ _ _ H).
Qed.

(** X21. A value that is rejected after a single dash is reported without an
    option: with no positional consumer registered, [- value ...] makes
    [populateWithHelp] return true after writing
    [Invalid Value: 'value' for option '(null)'], the tokens after the value
    unread. *)
Theorem single_dash_failure_message
  (prog v0 os usage : string) (post : queue) (m : machine) :
  findDefault m = no ->
  populateWithHelp (Z.of_nat (S (List.length ("-" :: v0 :: post))))
                   (prog :: "-" :: v0 :: post) os usage m =
  Ret (true,
       ((os ++ "Invalid Value: '" ++ v0 ++ "' for option '(null)'")
          ++ newline)%string,
       mkMachine (options (with_help m)) (vars m) (calls m ++ [(no, v0)])).
Proof.
  intros Hno. apply findDefault_with_help in Hno.
  assert (Hp : proc ("-" :: v0 :: post) (findDefault (with_help m))
                    (with_help m) =
               Ret (mkErrorState invalid None (Some v0), post,
                    mkMachine (options (with_help m)) (vars m)
                              (calls m ++ [(no, v0)]))).
  { rewrite Hno, proc_single_dash. reflexivity. }
  rewrite populateWithHelp_unfold.
  rewrite (populate_first_step max_string_length delims prog _ _ _ _ _ Hp).
  reflexivity.
Qed.

(** X22. The help flag is sticky: it is a static variable that nothing
    resets.  Once it is true, every later call of [populateWithHelp] whose
    parse is [ok] writes the usage text and the listing and returns true,
    with or without [-h] among its tokens. *)
Theorem help_stays_requested
  (c : Z) (argv : list string) (os usage : string) (m m' : machine)
  (e : errorState) :
  vars m help_static = VBool true ->
  (forall b, In b (options m) -> leaves b help_static) ->
  populate c argv (with_help m) = Ret (e, m') ->
  isOk e = true ->
  populateWithHelp c argv os usage m =
  Ret (true,
       (print_options (if String.eqb usage "" then os
                       else (os ++ usage ++ newline)%string) m'
        ++ newline)%string, m').
Proof.
  intros Hset Hleave Hpop Hok.
  assert (Hv : vars m' help_static = VBool true).
  { apply (flag_only_switched_on (fun x => x = VBool true) c argv
             (with_help m) m' e 0%nat help_descriptor help_static);
      try reflexivity; try assumption.
    - split; reflexivity.
    - left. discriminate.
    - intros j b Hj Hb. destruct j as [|j]; [congruence|].
      simpl in Hb. exact (Hleave b (nth_error_In _ _ Hb)). }
  rewrite populateWithHelp_unfold, Hpop. cbn [bind].
  rewrite Hok, Hv. reflexivity.
Qed.

(** X23. Called with no token beyond the program name, [populateWithHelp]
    has no defined result either: it tests the result of [populate], which
    was never written. *)
Theorem populateWithHelp_without_tokens_is_undefined
  (c : Z) (argv : list string) (os usage : string) (m : machine) :
  c <= 1 ->
  populateWithHelp c argv os usage m = Undefined indeterminate_read.
Proof.
  intros Hc. rewrite populateWithHelp_unfold.
  unfold arguments.populate.
  assert (Hn : (Z.to_nat c <= 1)%nat) by lia.
  destruct (Z.to_nat c) as [|[|n]]; [reflexivity|reflexivity|lia].
Qed.

Lemma string_append_assoc (x y z : string) :
  ((x ++ y) ++ z)%string = (x ++ (y ++ z))%string.
Proof.
  induction x as [|c x IH]; simpl; [reflexivity|now rewrite IH].
Qed.

Lemma print_argStrings_appends (o : string) (a : argStrings) :
  print_argStrings o a = (o ++ print_argStrings "" a)%string.
Proof.
  unfold print_argStrings.
  destruct (s a), (l a), (h a), (d a) as [[|c rest]|]; cbv zeta;
    simpl; repeat rewrite string_append_assoc;
    try rewrite append_nil_r; reflexivity.
Qed.

Lemma print_options_appends (os : list argObjBase) (o : string) :
  fold_left (fun o a => print_argStrings o (strings a)) os o =
  (o ++ fold_right String.append "" (map listing_line os))%string.
Proof.
  revert o. induction os as [|a os IH]; intros o; simpl.
  - now rewrite append_nil_r.
  - rewrite IH, print_argStrings_appends, string_append_assoc. reflexivity.
Qed.

(** X24. The listing of the options is appended to what the stream holds,
    one block for each descriptor, the option registered last first; a
    descriptor without spellings (the positional one) adds nothing. *)
Theorem listing_is_in_reverse_registration_order
  (o : string) (rs : list registration) (m0 : machine) :
  options m0 = [] ->
  print_options o (register_all rs m0) =
    (o ++ fold_right String.append ""
            (map (fun r => listing_line (descriptor r)) (rev rs)))%string /\
  (forall r, r_short r = None -> r_long r = None ->
             listing_line (descriptor r) = "").
Proof.
  intros Hm0. split.
  - unfold print_options. rewrite print_options_appends.
    rewrite register_all_options, Hm0, app_nil_r, map_rev, map_map.
    rewrite <- map_rev. reflexivity.
  - intros r Hs Hl. unfold listing_line, print_argStrings. simpl.
    rewrite Hs, Hl. reflexivity.
Qed.

(** *** What applying the defaults does *)

Lemma replay_app (cs1 cs2 : list (target * string)) (m : machine) :
  replay (cs1 ++ cs2) m = replay cs2 (replay cs1 m).
Proof. unfold replay. apply fold_left_app. Qed.

Lemma setDefaults_step_replay (m : machine) (i : nat) :
  setDefaults_step m i = replay (default_call m i) m.
Proof.
  unfold setDefaults_step, default_call.
  destruct (nth_error (options m) i) as [a|]; [|reflexivity].
  destruct (seen a); [reflexivity|].
  destruct (d (strings a)); reflexivity.
Qed.

Lemma setDefaults_fold_replay (idx : list nat) (m : machine) :
  NoDup idx ->
  fold_left setDefaults_step idx m = replay (flat_map (default_call m) idx) m.
Proof.
  intros Hnd. revert m.
  induction Hnd as [|i idx Hi _ IH]; intros m; simpl; [reflexivity|].
  rewrite IH, replay_app, <- setDefaults_step_replay. f_equal.
  apply flat_map_agree. intros j Hj.
  apply setDefaults_step_other. intros ->. contradiction.
Qed.

Lemma setDefaults_nth (m : machine) (i : nat) (a : argObjBase) :
  nth_error (options m) i = Some a ->
  nth_error (options (setDefaults m)) i =
  Some (match seen a, d (strings a) with
        | false, Some _ => mark_seen a
        | _, _ => a
        end).
Proof.
  intros Hi.
  assert (Hlt : (i < List.length (options m))%nat)
    by (apply nth_error_Some; congruence).
  rewrite (setDefaults_split m i Hlt).
  rewrite setDefaults_fold_nth by (rewrite in_seq; lia).
  assert (Hi2 : nth_error (options (fold_left setDefaults_step (seq 0 i) m)) i
                = Some a).
  { rewrite setDefaults_fold_nth by (rewrite in_seq; lia). exact Hi. }
  set (m2 := fold_left setDefaults_step (seq 0 i) m) in *.
  unfold setDefaults_step. rewrite Hi2.
  destruct (seen a); [exact Hi2|].
  destruct (d (strings a)) as [dflt|]; [|exact Hi2].
  rewrite (setMe_registered i a dflt m2 Hi2). simpl.
  apply nth_error_replace_same. apply nth_error_Some. congruence.
Qed.

Lemma setDefaults_seen_keeps (m : machine) (i : nat) (a : argObjBase)
  (v : var) :
  nth_error (options m) i = Some a ->
  seen a = true ->
  others_leave i v m ->
  vars (setDefaults m) v = vars m v.
Proof.
  intros Hi Hseen Halone.
  assert (Hlt : (i < List.length (options m))%nat)
    by (apply nth_error_Some; congruence).
  rewrite (setDefaults_split m i Hlt).
  destruct (setDefaults_fold_frame i v (seq 0 i) m) as (Hv1 & Hn1 & Ha1);
    [rewrite in_seq; lia|exact Halone|].
  set (m2 := fold_left setDefaults_step (seq 0 i) m) in *.
  assert (Hstep : setDefaults_step m2 i = m2).
  { unfold setDefaults_step. rewrite Hn1, Hi, Hseen. reflexivity. }
  rewrite Hstep.
  destruct (setDefaults_fold_frame i v
              (seq (S i) (List.length (options m) - S i)) m2)
    as (Hv3 & _ & _); [rewrite in_seq; lia|exact Ha1|].
  congruence.
Qed.

(** C6. Let the loop of [populate] end with result [e], queue [q] and machine
    [m1].  If [e] is not [ok], [populate] returns [m1] as it is: no default
    is applied.  If [e] is [ok], the queue is empty and [populate] returns
    the machine that the setter calls [dl] of one pass of [setDefaults],
    made in order on [m1], produce.  For a descriptor with a default string,
    its setter is called with that string if and only if its [seen] flag in
    [m1] is false, and at most once; the descriptor is then marked as seen,
    and it is left as it was otherwise; [dl] holds no other call.  In the
    variables: an [argObj<T>] that no other descriptor shares its variable
    with ends with what the converter makes of the default string when it
    was unseen, and with what it held when the loop ended when it was
    seen. *)
Theorem defaults_applied_iff_unseen
  (c : Z) (argv : list string) (m : machine) (args q : queue)
  (e : errorState) (m1 : machine) :
  push_args (Z.to_nat c) argv [] = Ret args ->
  run (weight args) args (findDefault m) None m = Ret (Some e, q, m1) ->
  (state e <> ok /\ populate c argv m = Ret (e, m1)) \/
  (state e = ok /\ q = [] /\
   exists dl m',
     populate c argv m = Ret (e, m') /\
     m' = replay dl m1 /\
     calls m' = calls m1 ++ dl /\
     (forall i a dflt,
         nth_error (options m1) i = Some a ->
         d (strings a) = Some dflt ->
         (In (registered i, dflt) dl <-> seen a = false) /\
         (count_occ call_eq_dec dl (registered i, dflt) <= 1)%nat /\
         nth_error (options m') i = Some (if seen a then a else mark_seen a)) /\
     (forall t str,
         In (t, str) dl ->
         exists i a, t = registered i /\ nth_error (options m1) i = Some a /\
                     seen a = false /\ d (strings a) = Some str) /\
     (forall i a T v dflt,
         nth_error (options m1) i = Some a ->
         d (strings a) = Some dflt ->
         isArgObj T v a ->
         others_leave i v m1 ->
         vars m' v = if seen a then vars m1 v
                     else snd (fromString T dflt (vars m1 v)))).
Proof.
  intros Hargs Hrun.
  assert (Hpop : populate c argv m =
                 match state e with
                 | ok => Ret (e, setDefaults m1)
                 | _ => Ret (e, m1)
                 end).
  { unfold arguments.populate. rewrite Hargs. cbn [bind].
    rewrite Hrun. reflexivity. }
  destruct (state e) eqn:He;
    [|left; split; [discriminate|exact Hpop]
     |left; split; [discriminate|exact Hpop]].
  right. split; [reflexivity|]. split.
  { destruct (run_ok_empties max_string_length delims _ _ _ _ _ _ _ _ Hrun)
      as [Hq|(e' & He' & Hne)]; [exact Hq|]. inversion He'; subst. congruence. }
  exists (flat_map (default_call m1) (seq 0 (List.length (options m1)))),
         (setDefaults m1).
  split; [exact Hpop|]. split.
  { unfold setDefaults. apply setDefaults_fold_replay. apply seq_NoDup. }
  split.
  { unfold setDefaults. apply setDefaults_fold_calls. apply seq_NoDup. }
  split; [|split].
  - intros i a dflt Hi Hd. split; [|split].
    + rewrite in_flat_map. split.
      * intros (j & _ & Hin). apply default_call_In in Hin.
        destruct Hin as (Heq & a' & Ha' & Hs & _).
        inversion Heq; subst. congruence.
      * intros Hs. exists i. split.
        -- apply in_seq. split; [lia|]. simpl. apply nth_error_Some. congruence.
        -- apply default_call_In. split; [reflexivity|]. exists a. auto.
    + etransitivity; [apply default_calls_count|].
      apply NoDup_count_occ. apply seq_NoDup.
    + rewrite (setDefaults_nth m1 i a Hi), Hd.
      destruct (seen a); reflexivity.
  - intros t str Hin. apply in_flat_map in Hin.
    destruct Hin as (j & _ & Hin). apply default_call_In in Hin.
    destruct Hin as (-> & a & Ha & Hs & Hd). exists j, a. auto.
  - intros i a T v dflt Hi Hd Ha Halone.
    destruct (seen a) eqn:Hs.
    + exact (setDefaults_seen_keeps m1 i a v Hi Hs Halone).
    + exact (proj1 (setDefaults_at i v m1 a T dflt Hi Ha Hs Hd Halone)).
Qed.

Lemma assign_leaves (a : argObjBase) (T : ty) (v y : var) :
  conv a = assign T v -> v <> y -> leaves a y.
Proof.
  intros Hc Hvy str st. rewrite Hc. unfold assign.
  destruct (fromString T str (st v)) as [r x]. simpl. unfold upd.
  destruct (String.eqb v y) eqn:E; [|reflexivity].
  apply String.eqb_eq in E. congruence.
Qed.

End Coverage.

(** ** The further theorems at concrete inputs *)

Lemma spelling_longer_than_max_witness :
  isMe 4 [] (descriptor reg_outfile) (Some "outfile") false = None.
Proof.
  apply (spelling_longer_than_max_never_matches 4 [] (descriptor reg_outfile)
           "outfile" "outfile" false eq_refl).
  - discriminate.
  - simpl. lia.
Defined.

Lemma long_spelling_matches_exactly_witness :
  isMe 64 [] (descriptor reg_outfile) (Some "outfile=foo") false
    = Some (Some "foo") /\
  isMe 64 [] (descriptor reg_outfile) (Some "outfilex") false <> Some None.
Proof.
  assert (Hlen : Z.of_nat (String.length "outfile") <= 64) by (simpl; lia).
  split.
  - apply (proj2 (long_spelling_matches_exactly 64 [] (descriptor reg_outfile)
                    "outfile" "outfile=foo" (Some "foo") eq_refl Hlen)).
    right. exists "="%char, "foo". repeat split; reflexivity.
  - intros H.
    apply (proj1 (long_spelling_matches_exactly 64 [] (descriptor reg_outfile)
                    "outfile" "outfilex" None eq_refl Hlen)) in H.
    destruct H as [[H _]|(c & v & _ & _ & H)]; discriminate.
Defined.

Lemma short_spelling_matches_by_prefix_witness :
  isMe 64 [] (descriptor reg_ws) (Some "w5") true = Some (Some "5").
Proof.
  assert (Hlen : Z.of_nat (String.length "w") <= 64) by (simpl; lia).
  apply (proj2 (short_spelling_matches_by_prefix 64 [] (descriptor reg_ws)
                  "w" "w5" (Some "5") eq_refl Hlen)).
  exists "5". split; reflexivity.
Defined.

Lemma positional_tokens_accumulate_witness :
  exists m',
    run 64 [] (weight ["bar1"; "bar2"]) ["bar1"; "bar2"] (registered 0) None
        (documented sevens) = Ret (Some allgood, [], m') /\
    vars m' "infile" = VList [VString "bar1"; VString "bar2"].
Proof.
  assert (Hplain : Forall plain ["bar1"; "bar2"]).
  { repeat (apply Forall_cons; [simpl; discriminate|]). apply Forall_nil. }
  destruct (positional_tokens_accumulate 64 [] 0 "infile" ["bar1"; "bar2"]
              (descriptor reg_infile) [] None (documented sevens)
              eq_refl (conj eq_refl eq_refl) eq_refl Hplain)
    as (m' & Hrun & Hv & _).
  exists m'. split; [exact Hrun|exact Hv].
Defined.

Lemma plain_token_without_consumer_witness :
  populate 64 [] 2 ["./test"; "x"] malformed =
  Ret (mkErrorState invalid (Some "default list") (Some "x"),
       mkMachine (options malformed) (vars malformed) [(no, "x")]).
Proof.
  apply (plain_token_without_consumer_is_invalid 64 [] "./test" "x" []
           malformed eq_refl).
  simpl. discriminate.
Defined.

Lemma rejected_value_is_reported_witness :
  exists m',
    proc 64 [] ["-c"; "abc"] no (documented sevens) =
      Ret (mkErrorState invalid (Some "-c") (Some "abc"), [], m') /\
    nth_error (options m') 2 = Some (mark_seen (descriptor reg_count)) /\
    vars m' "count" = VInt 0.
Proof.
  assert (Hop : "c" <> "") by discriminate.
  assert (Hn : numArgs (descriptor reg_count) <> 0) by discriminate.
  destruct (rejected_value_is_reported 64 [] (documented sevens) no None
              "c" "abc" ["abc"] [] 2%nat None (descriptor reg_count)
              Hop eq_refl eq_refl Hn eq_refl eq_refl)
    as (m' & Hp & _ & Hi & Hv).
  exists m'. split; [exact Hp|]. split; [exact Hi|].
  rewrite Hv. reflexivity.
Defined.

Lemma option_without_value_witness :
  proc 64 [] ["-c"] (findDefault 64 [] (documented sevens))
       (documented sevens) = Undefined front_of_empty /\
  populate 64 [] 2 ["./test"; "-c"] (documented sevens) =
    Undefined front_of_empty.
Proof.
  assert (Hop : "c" <> "") by discriminate.
  assert (Hn : numArgs (descriptor reg_count) <> 0) by discriminate.
  apply (option_without_value_is_undefined 64 [] 2 ["./test"; "-c"]
           (documented sevens) ["-c"] "c" (documented sevens) 2%nat
           (descriptor reg_count) eq_refl (reaches_here 64 [] _ _)
           Hop eq_refl eq_refl Hn).
Defined.

Lemma next_token_is_the_value_witness :
  exists m',
    proc 64 [] ["-o"; "--bogus"] no (documented sevens) =
      Ret (allgood, [], m') /\
    vars m' "outfile" = VString "--bogus".
Proof.
  assert (Hop : "o" <> "") by discriminate.
  destruct (next_token_is_the_value 64 [] (documented sevens) no "o" "--bogus"
              [] 3%nat (descriptor reg_outfile) "outfile"
              Hop eq_refl eq_refl (conj eq_refl eq_refl))
    as (m' & Hp & Hv & _).
  exists m'. split; [exact Hp|exact Hv].
Defined.


Lemma double_dash_witness :
  proc 64 [] ["--"; "x"] no (documented sevens) =
  Ret (mkErrorState unknown (Some "--") None, ["x"], documented sevens).
Proof.
  apply (double_dash_is_an_unknown_option 64 [] (documented sevens) no ["x"]).
  intros a [<-|[<-|[<-|[<-|[]]]]]; discriminate.
Defined.

Lemma populate_keeps_the_registry_witness :
  let m := documented sevens in
  let m' := setDefaults (snd (setMe (registered 2) "4" m)) in
  populate 64 [] 3 ["./test"; "-c"; "4"] m = Ret (allgood, m') /\
  same_registry m m'.
Proof.
  intros m m'.
  assert (H : populate 64 [] 3 ["./test"; "-c"; "4"] m = Ret (allgood, m'))
    by reflexivity.
  split; [exact H|].
  exact (populate_keeps_the_registry 64 [] 3 ["./test"; "-c"; "4"] m m'
           allgood H).
Defined.

Lemma populate_keeps_unbound_variables_witness :
  let m := documented sevens in
  let m' := setDefaults (snd (setMe (registered 2) "4" m)) in
  populate 64 [] 3 ["./test"; "-c"; "4"] m = Ret (allgood, m') /\
  vars m' "other" = vars m "other".
Proof.
  intros m m'.
  assert (H : populate 64 [] 3 ["./test"; "-c"; "4"] m = Ret (allgood, m'))
    by reflexivity.
  split; [exact H|].
  apply (populate_keeps_unbound_variables 64 [] 3 ["./test"; "-c"; "4"] m m'
           allgood "other"); [|exact H].
  intros b [<-|[<-|[<-|[<-|[]]]]].
  - apply (assign_leaves _ (TList TString) "infile"); [reflexivity|discriminate].
  - apply (assign_leaves _ (TList TInt) "ws"); [reflexivity|discriminate].
  - apply (assign_leaves _ TInt "count"); [reflexivity|discriminate].
  - apply (assign_leaves _ TString "outfile"); [reflexivity|discriminate].
Defined.

Lemma defaulted_options_end_seen_witness :
  let m := documented sevens in
  let m' := setDefaults (snd (setMe (registered 1) "4" m)) in
  populate 64 [] 3 ["./test"; "-w"; "4"] m = Ret (allgood, m') /\
  nth_error (options m') 2 = Some (mark_seen (descriptor reg_count)) /\
  seen (mark_seen (descriptor reg_count)) = true.
Proof.
  intros m m'.
  assert (H : populate 64 [] 3 ["./test"; "-w"; "4"] m = Ret (allgood, m'))
    by reflexivity.
  assert (Hn : nth_error (options m') 2 = Some (mark_seen (descriptor reg_count)))
    by reflexivity.
  split; [exact H|]. split; [exact Hn|].
  apply (defaulted_options_end_seen 64 [] 3 ["./test"; "-w"; "4"] m m' allgood
           (mark_seen (descriptor reg_count)) H eq_refl).
  - exact (nth_error_In _ _ Hn).
  - discriminate.
Defined.

Lemma unseen_option_gets_its_default_witness :
  let m := documented sevens in
  let m1 := snd (setMe (registered 3) "x" m) in
  exists m',
    populate 64 [] 3 ["./test"; "-o"; "x"] m = Ret (allgood, m') /\
    vars m' "count" = VInt 13.
Proof.
  intros m m1.
  assert (Halone : others_leave 2 "count" m1).
  { intros [|[|[|[|j]]]] b Hj Hb; [| |congruence| |destruct j; discriminate];
      inversion Hb; subst.
    - apply (assign_leaves _ (TList TString) "infile");
        [reflexivity|discriminate].
    - apply (assign_leaves _ (TList TInt) "ws"); [reflexivity|discriminate].
    - apply (assign_leaves _ TString "outfile"); [reflexivity|discriminate]. }
  destruct (unseen_option_gets_its_default 64 [] 3 ["./test"; "-o"; "x"] m
              ["-o"; "x"] [] allgood m1 2%nat (descriptor reg_count) TInt
              "count" "13" eq_refl eq_refl eq_refl eq_refl
              (conj eq_refl eq_refl) eq_refl eq_refl Halone)
    as (m' & Hpop & Hv & _).
  exists m'. split; [exact Hpop|]. rewrite Hv. reflexivity.
Defined.

Lemma supplied_value_is_not_overridden_witness :
  let m := documented sevens in
  let m1 := snd (setMe (registered 2) "4" m) in
  exists m',
    populate 64 [] 3 ["./test"; "-c"; "4"] m = Ret (allgood, m') /\
    vars m' "count" = VInt 4.
Proof.
  intros m m1.
  assert (Halone : others_leave 2 "count" m1).
  { intros [|[|[|[|j]]]] b Hj Hb; [| |congruence| |destruct j; discriminate];
      inversion Hb; subst.
    - apply (assign_leaves _ (TList TString) "infile");
        [reflexivity|discriminate].
    - apply (assign_leaves _ (TList TInt) "ws"); [reflexivity|discriminate].
    - apply (assign_leaves _ TString "outfile"); [reflexivity|discriminate]. }
  destruct (supplied_value_is_not_overridden 64 [] 3 ["./test"; "-c"; "4"] m
              ["-c"; "4"] [] allgood m1 2%nat
              (mark_seen (descriptor reg_count)) "count"
              eq_refl eq_refl eq_refl eq_refl eq_refl Halone)
    as (m' & Hpop & Hv).
  exists m'. split; [exact Hpop|]. rewrite Hv. reflexivity.
Defined.


Lemma flag_is_never_switched_off_witness :
  let m' := setDefaults (snd (setMe (registered 0) "true" malformed)) in
  populate 64 [] 2 ["./test"; "-v"] malformed = Ret (allgood, m') /\
  (vars m' "verbose" = VBool true \/ vars m' "verbose" = vars malformed "verbose").
Proof.
  intros m'.
  assert (H : populate 64 [] 2 ["./test"; "-v"] malformed = Ret (allgood, m'))
    by reflexivity.
  split; [exact H|].
  apply (flag_is_never_switched_off 64 [] 2 ["./test"; "-v"] malformed m'
           allgood 0%nat (descriptor reg_verbose) "verbose"
           eq_refl (conj eq_refl eq_refl) eq_refl);
    [left; discriminate| |exact H].
  intros [|[|j]] b Hj Hb; try congruence; inversion Hb; subst.
  - apply (assign_leaves _ TInt "level"); [reflexivity|discriminate].
  - destruct j; discriminate.
Defined.

Lemma dash_h_is_always_help_witness :
  exists m',
    proc 64 [] ["-host"; "example.org"] no (with_help (documented sevens)) =
      Ret (allgood, ["ost"; "example.org"], m') /\
    vars m' help_static = VBool true.
Proof.
  assert (Hmax : 1 <= 64) by lia.
  destruct (dash_h_is_always_help 64 [] (documented sevens) no "ost"
              ["example.org"] Hmax) as (m' & Hp & Hv & _).
  exists m'. split; [exact Hp|exact Hv].
Defined.

Lemma unknown_option_message_witness :
  populateWithHelp 64 [] 2 ["./test"; "--bogus"] "" "Usage:" (documented sevens)
  = Ret (true, ("Unknown Option: '--bogus'" ++ newline)%string,
         with_help (documented sevens)).
Proof.
  assert (Hop : "-bogus" <> "") by discriminate.
  exact (unknown_option_message 64 [] "./test" "-bogus" "" "Usage:" []
           (documented sevens) Hop eq_refl).
Defined.

Lemma single_dash_failure_message_witness :
  populateWithHelp 64 [] 4 ["./test"; "-"; "x"; "y"] "" "Usage:" malformed
  = Ret (true,
         ("Invalid Value: 'x' for option '(null)'" ++ newline)%string,
         mkMachine (options (with_help malformed)) (vars malformed)
                   [(no, "x")]).
Proof.
  exact (single_dash_failure_message 64 [] "./test" "x" "" "Usage:" ["y"]
           malformed eq_refl).
Defined.

Lemma help_stays_requested_witness :
  let m := register_all [reg_verbose]
             (mkMachine [] (upd help_static (VBool true) sevens) []) in
  let m' := setDefaults (snd (setMe (registered 1) "true" (with_help m))) in
  populateWithHelp 64 [] 2 ["./test"; "-v"] "" "" m =
  Ret (true, (print_options "" m' ++ newline)%string, m').
Proof.
  intros m m'.
  apply (help_stays_requested 64 [] 2 ["./test"; "-v"] "" "" m m' allgood).
  - reflexivity.
  - intros b [<-|[]].
    apply (assign_leaves _ TBool "verbose"); [reflexivity|discriminate].
  - reflexivity.
  - reflexivity.
Defined.

Lemma populateWithHelp_without_tokens_witness :
  1 <= 1 /\
  populateWithHelp 64 [] 1 ["./test"] "" "" (documented sevens) =
    Undefined indeterminate_read.
Proof.
  split; [lia|].
  apply populateWithHelp_without_tokens_is_undefined. lia.
Defined.

Lemma listing_is_in_reverse_registration_order_witness :
  print_options "" (register_all [reg_outfile; reg_infile; reg_verbose]
                                 (mkMachine [] sevens []))
  = (listing_line (descriptor reg_verbose) ++
     listing_line (descriptor reg_outfile))%string /\
  listing_line (descriptor reg_outfile) =
    ("  -o, --outfile" ++ tab ++ "Output file name (default: 'out.dat')"
       ++ newline)%string.
Proof.
  split; [|reflexivity].
  destruct (listing_is_in_reverse_registration_order ""
              [reg_outfile; reg_infile; reg_verbose] (mkMachine [] sevens [])
              eq_refl) as [H _].
  rewrite H. reflexivity.
Defined.

Lemma defaults_applied_iff_unseen_witness :
  let m := documented sevens in
  let m1 := snd (setMe (registered 2) "4" m) in
  exists dl m',
    populate 64 [] 3 ["./test"; "-c"; "4"] m = Ret (allgood, m') /\
    m' = replay dl m1 /\
    calls m' = calls m1 ++ dl /\
    In (registered 3, "out.dat") dl /\
    ~ In (registered 2, "13") dl /\
    nth_error (options m') 3 = Some (mark_seen (descriptor reg_outfile)) /\
    vars m' "outfile" = VString "out.dat" /\
    vars m' "count" = VInt 4.
Proof.
  intros m m1.
  destruct (defaults_applied_iff_unseen 64 [] 3 ["./test"; "-c"; "4"] m
              ["-c"; "4"] [] allgood m1 eq_refl eq_refl)
    as [[Hne _]|(_ & _ & dl & m' & Hpop & Hrep & Hcalls & Hiff & _ & Hval)].
  - exfalso. apply Hne. reflexivity.
  - exists dl, m'.
    destruct (Hiff 3%nat (descriptor reg_outfile) "out.dat" eq_refl eq_refl)
      as (Hin3 & _ & Hn3).
    destruct (Hiff 2%nat (mark_seen (descriptor reg_count)) "13" eq_refl eq_refl)
      as (Hin2 & _ & _).
    split; [exact Hpop|]. split; [exact Hrep|]. split; [exact Hcalls|].
    split; [apply Hin3; reflexivity|].
    split; [intros Hin; apply Hin2 in Hin; discriminate Hin|].
    split; [exact Hn3|]. split.
    + rewrite (Hval 3%nat (descriptor reg_outfile) TString "outfile" "out.dat"
                 eq_refl eq_refl (conj eq_refl eq_refl)); [reflexivity|].
      intros [|[|[|[|j]]]] b Hj Hb;
        [| | |congruence|destruct j; discriminate]; inversion Hb; subst.
      * apply (assign_leaves _ (TList TString) "infile");
          [reflexivity|discriminate].
      * apply (assign_leaves _ (TList TInt) "ws"); [reflexivity|discriminate].
      * apply (assign_leaves _ TInt "count"); [reflexivity|discriminate].
    + rewrite (Hval 2%nat (mark_seen (descriptor reg_count)) TInt "count" "13"
                 eq_refl eq_refl (conj eq_refl eq_refl)); [reflexivity|].
      intros [|[|[|[|j]]]] b Hj Hb;
        [| |congruence| |destruct j; discriminate]; inversion Hb; subst.
      * apply (assign_leaves _ (TList TString) "infile");
          [reflexivity|discriminate].
      * apply (assign_leaves _ (TList TInt) "ws"); [reflexivity|discriminate].
      * apply (assign_leaves _ TString "outfile"); [reflexivity|discriminate].
Defined.

End arguments.
